(** * AgoraX Audio: the voice-room signaling server

    A shallow embedding of the Socket.IO signaling server of AgoraX Audio
    (the current server, with the ten-user limit, the explicit leave and
    the finalize hook, and the older entry point [src/api/index.ts]),
    together with the properties of its room registry, its relay handlers
    and its finalize hook.

    Conventions.  Strings are sequences of bytes: the UTF-8 form of the
    JavaScript string, an unpaired surrogate being written as the three
    bytes its code point would take ([ED A0..BF xx], which no well-formed
    UTF-8 text contains); [encodeURIComponent] throws on such a string.
    The registry [rooms] is a JavaScript object used as a dictionary and
    is modelled as the finite map of its own properties; for a key that
    names a property of [Object.prototype] the lookup [rooms[roomId]]
    finds the inherited value, and the join listeners throw on it
    ([join_voice_room_listener]).  The [for ... in] loop of the disconnect
    handler enumerates the own keys, and no statement below depends on
    the order of that enumeration.  The Socket.IO transport is
    modelled by the two pieces of its state the handlers use: the set of
    connected sockets and the adapter, which maps a transport room to the
    sockets in it (every socket is put in the room named by its own id
    when it connects, and is taken out of every room before its
    ["disconnect"] listeners run). *)

From Stdlib Require Import Ascii.
From stdpp Require Import gmap strings list fin_maps.

Open Scope string_scope.
Open Scope list_scope.

(** ** Strings: the two JavaScript string functions of the finalize URL *)

Definition is_slash (c : ascii) : bool := Ascii.eqb c "/".

Fixpoint all_slashes (s : string) : bool :=
  match s with
  | EmptyString => true
  | String c s' => is_slash c && all_slashes s'
  end.

(** [base.replace(/\/+$/,'')]: the regular expression matches at the
    leftmost position from which only slashes (at least one) remain up to
    the end of the input; the match is replaced by the empty string. *)
Fixpoint replace_trailing_slashes (s : string) : string :=
  match s with
  | EmptyString => EmptyString
  | String c s' =>
      if is_slash c && all_slashes s' then EmptyString
      else String c (replace_trailing_slashes s')
  end.

Definition in_range (lo hi : nat) (c : ascii) : bool :=
  (lo <=? nat_of_ascii c)%nat && (nat_of_ascii c <=? hi)%nat.

Fixpoint char_in (c : ascii) (s : string) : bool :=
  match s with
  | EmptyString => false
  | String d s' => Ascii.eqb c d || char_in c s'
  end.

(** The characters [encodeURIComponent] leaves alone:
    [A-Z a-z 0-9 - _ . ! ~ * ' ( )]. *)
Definition uri_unreserved (c : ascii) : bool :=
  in_range 65 90 c || in_range 97 122 c || in_range 48 57 c
  || char_in c "-_.!~*'()".

Definition hex_digit (n : nat) : ascii :=
  match String.get n "0123456789ABCDEF" with
  | Some d => d
  | None => "0"%char
  end.

Definition percent_encode (c : ascii) : string :=
  String "%" (String (hex_digit (nat_of_ascii c / 16))
             (String (hex_digit (nat_of_ascii c mod 16)) EmptyString)).

(** The value of [encodeURIComponent(s)] when the call returns: every
    byte of the UTF-8 form of a character that is not left alone becomes
    a percent escape.  The call throws on a string with an unpaired
    surrogate ([encodeURIComponent_call]). *)
Fixpoint encodeURIComponent (s : string) : string :=
  match s with
  | EmptyString => EmptyString
  | String c s' =>
      (if uri_unreserved c then String c EmptyString else percent_encode c)
      +:+ encodeURIComponent s'
  end.

(** An unpaired surrogate: the byte [ED] followed by a byte from [A0] to
    [BF] (a pair of surrogates is one character of four bytes). *)
Fixpoint unpaired_surrogate (s : string) : bool :=
  match s with
  | EmptyString => false
  | String c1 s1 =>
      match s1 with
      | String c2 _ => in_range 237 237 c1 && in_range 160 191 c2
      | EmptyString => false
      end
      || unpaired_surrogate s1
  end.

(** The template literal of [tryFinalize] (leave) and of the disconnect
    handler: the same expression in both places.  This is its value when
    [encodeURIComponent] returns. *)
Definition finalize_url (base roomId : string) : string :=
  replace_trailing_slashes base +:+ "/api/audio/finalize?roomId="
  +:+ encodeURIComponent roomId.

Fixpoint slashes (n : nat) : string :=
  match n with
  | O => EmptyString
  | S n' => String "/" (slashes n')
  end.

Definition uri_safe (c : ascii) : bool := uri_unreserved c || Ascii.eqb c "%".

Fixpoint string_forallb (p : ascii -> bool) (s : string) : bool :=
  match s with
  | EmptyString => true
  | String c s' => p c && string_forallb p s'
  end.

(** ** Asynchronous code: requests issued, and how the body ends

    An [async] body is run against the log of the requests issued so far;
    it either returns a value or throws (the code never inspects the
    exception it catches, so the exception carries no data). *)

Inductive completion (A : Type) : Type :=
| Returned (a : A)
| Thrown.
Arguments Returned {A} a.
Arguments Thrown {A}.

Definition async (A : Type) : Type := list string -> list string * completion A.

#[global] Instance async_ret : MRet async :=
  fun A a log => (log, Returned a).

#[global] Instance async_bind : MBind async :=
  fun A B k m log =>
    match m log with
    | (log', Returned a) => k a log'
    | (log', Thrown) => (log', Thrown)
    end.

(** [try { body } catch (e) { handler }] *)
Definition try_catch {A : Type} (body handler : async A) : async A :=
  fun log =>
    match body log with
    | (log', Thrown) => handler log'
    | done_ => done_
    end.

(** What the remote end does with a POST.  [fetch] rejects on a network
    error; otherwise it resolves with a response, whatever its status.
    [json_ok] tells whether [resp.json()] resolves, [text_ok] whether
    [resp.text()] does. *)
Record response : Type := {
  status : nat;
  json_ok : bool;
  text_ok : bool
}.

Inductive fetch_outcome : Type :=
| fetch_rejects
| fetch_resolves (resp : response).

(** [process.env.RESUME_BASE] and the network the server talks to. *)
Record environment : Type := {
  RESUME_BASE : option string;
  network : string -> fetch_outcome
}.

(** [fetch(url, { method: 'POST' })] *)
Definition fetch (env : environment) (url : string) : async response :=
  fun log =>
    (log ++ [url],
     match network env url with
     | fetch_rejects => Thrown
     | fetch_resolves resp => Returned resp
     end).

Definition resp_json (resp : response) : async unit :=
  fun log => (log, if json_ok resp then Returned tt else Thrown).

Definition resp_text (resp : response) : async unit :=
  fun log => (log, if text_ok resp then Returned tt else Thrown).

(** [encodeURIComponent(roomId)] as the code calls it: a [URIError] is
    thrown when the string has an unpaired surrogate. *)
Definition encodeURIComponent_call (s : string) : async string :=
  fun log =>
    (log, if unpaired_surrogate s then Thrown
          else Returned (encodeURIComponent s)).

(** The evaluation of the template literal, from left to right. *)
Definition finalize_url_template (base roomId : string) : async string :=
  let trimmed := replace_trailing_slashes base in
  encoded ← encodeURIComponent_call roomId;
  mret (trimmed +:+ "/api/audio/finalize?roomId=" +:+ encoded).

(** [tryFinalize] of the leave handler. *)
Definition tryFinalize (env : environment) (roomId base : string)
  : async response :=
  url ← finalize_url_template base roomId;
  resp ← fetch env url;
  try_catch (resp_json resp) (resp_text resp);;
  mret resp.

(** [if (resume)]: an unset variable and the empty string are falsy. *)
Definition truthy (o : option string) : option string :=
  match o with
  | Some EmptyString => None
  | other => other
  end.

(** The async arrow function the leave handler calls when the room is
    empty. *)
Definition finalize_on_leave (env : environment) (roomId : string)
  : async unit :=
  try_catch
    (let resume := RESUME_BASE env in
     match truthy resume with
     | Some base =>
         try_catch (tryFinalize env roomId base;; mret tt) (mret tt)
     | None => mret tt
     end)
    (mret tt).

(** The async arrow function of the disconnect handler: the same steps,
    written in place. *)
Definition finalize_on_disconnect (env : environment) (roomId : string)
  : async unit :=
  try_catch
    (let resume := RESUME_BASE env in
     match truthy resume with
     | Some base =>
         try_catch
           (url ← finalize_url_template base roomId;
            resp ← fetch env url;
            try_catch (resp_json resp) (resp_text resp))
           (mret tt)
     | None => mret tt
     end)
    (mret tt).

(** ** Messages, targets and effects *)

(** Session descriptions and candidates are forwarded without being
    looked at: they are modelled by their serialized form. *)
Definition blob : Type := string.

(** The outbound events with their payloads. *)
Inductive message : Type :=
| room_full (roomId : string) (max : nat)
| user_joined (id : string)
| user_left (id : string)
| voice_offer (from : string) (offer : blob) (roomId : string)
| voice_answer (from : string) (answer : blob) (roomId : string)
| ice_candidate (from : string) (candidate : blob).

(** [socket.emit], [io.to(room).emit], [socket.to(room).emit]. *)
Inductive target : Type :=
| to_socket (id : string)
| to_room (room : string)
| to_room_except (room id : string).

(** What a handler does to the outside: an emission, with the sockets
    that get it, or a POST; [UnhandledRejection] records a detached
    async call whose promise rejects. *)
Inductive effect : Type :=
| Emit (t : target) (recipients : gset string) (m : message)
| Fetch_POST (url : string)
| UnhandledRejection.

#[global] Instance message_eq_dec : EqDecision message.
Proof. solve_decision. Defined.
#[global] Instance target_eq_dec : EqDecision target.
Proof. solve_decision. Defined.
#[global] Instance effect_eq_dec : EqDecision effect.
Proof. solve_decision. Defined.

(** A detached call of an async function: it runs from an empty log; the
    requests it issues are effects, and so is a rejection nobody
    handles. *)
Definition spawn (task : async unit) : list effect :=
  match task [] with
  | (reqs, Returned _) => Fetch_POST <$> reqs
  | (reqs, Thrown) => (Fetch_POST <$> reqs) ++ [UnhandledRejection]
  end.

(** ** The transport *)

Definition members (a : gmap string (gset string)) (room : string)
  : gset string :=
  default ∅ (a !! room).

Definition socket_join (id room : string) (a : gmap string (gset string))
  : gmap string (gset string) :=
  <[room := {[id]} ∪ members a room]> a.

Definition socket_leave (id room : string) (a : gmap string (gset string))
  : gmap string (gset string) :=
  <[room := members a room ∖ {[id]}]> a.

(** Before the ["disconnect"] listeners run, Socket.IO takes the socket
    out of every transport room. *)
Definition leaveAll (id : string) (a : gmap string (gset string))
  : gmap string (gset string) :=
  (fun s => s ∖ {[id]}) <$> a.

Definition socket_emit (id : string) (m : message) : effect :=
  Emit (to_socket id) {[id]} m.

Definition socket_to (a : gmap string (gset string)) (id room : string)
  (m : message) : effect :=
  Emit (to_room_except room id) (members a room ∖ {[id]}) m.

Definition io_to (a : gmap string (gset string)) (room : string)
  (m : message) : effect :=
  Emit (to_room room) (members a room) m.

(** ** The server state *)

Record server : Type := {
  rooms : gmap string (list string);
  sockets : gset string;
  adapter : gmap string (gset string)
}.

Definition init : server :=
  {| rooms := ∅; sockets := ∅; adapter := ∅ |}.

(** [rooms[roomId].users], empty for an unknown room. *)
Definition users (st : server) (roomId : string) : list string :=
  default [] (rooms st !! roomId).

(** The inbound events, each with the socket it comes from. *)
Inductive event : Type :=
| connection (socket : string)
| join_voice_room (socket roomId : string)
| leave_voice_room (socket roomId : string)
| on_voice_offer (socket roomId : string) (offer : blob) (to : string)
| on_voice_answer (socket roomId : string) (answer : blob) (to : string)
| on_ice_candidate (socket : string) (candidate : blob) (to : string)
| disconnect (socket : string).

#[global] Instance event_eq_dec : EqDecision event.
Proof. solve_decision. Defined.

(** [for (const roomId in rooms)] *)
Definition keys (rs : gmap string (list string)) : list string :=
  (map_to_list rs).*1.

(** The names every object inherits from [Object.prototype]. *)
Definition Object_prototype : list string :=
  ["constructor"; "__proto__"; "hasOwnProperty"; "isPrototypeOf";
   "propertyIsEnumerable"; "toLocaleString"; "toString"; "valueOf";
   "__defineGetter__"; "__defineSetter__"; "__lookupGetter__";
   "__lookupSetter__"].

Definition inherited (key : string) : bool :=
  bool_decide (key ∈ Object_prototype).

(** [rooms[roomId]] finds a value of [Object.prototype]: the key is not
    an own property of the registry and names an inherited one.  Such a
    value is truthy and has no [users] property. *)
Definition finds_prototype_value (rs : gmap string (list string))
  (key : string) : bool :=
  bool_decide (rs !! key = None) && inherited key.

(** ** The handlers of the current server *)

(** The body of the listener of ["join-voice-room"], with the ten-user
    limit, when [rooms[roomId]] is an own property or [undefined]. *)
Definition on_join_voice_room (socket roomId : string) (st : server)
  : server * list effect :=
  let rooms1 :=
    match rooms st !! roomId with
    | None => <[roomId := []]> (rooms st)
    | Some _ => rooms st
    end in
  let us := default [] (rooms1 !! roomId) in
  if (10 <=? length us)%nat then
    ({| rooms := rooms1; sockets := sockets st; adapter := adapter st |},
     [socket_emit socket (room_full roomId 10)])
  else
    let added := negb (bool_decide (socket ∈ us)) in
    let rooms2 :=
      if added then <[roomId := us ++ [socket]]> rooms1 else rooms1 in
    let adapter1 := socket_join socket roomId (adapter st) in
    ({| rooms := rooms2; sockets := sockets st; adapter := adapter1 |},
     if added then [socket_to adapter1 socket roomId (user_joined socket)]
     else []).

(** [socket.on("join-voice-room", ...)].  When the lookup finds a value
    of [Object.prototype], the test [!rooms[roomId]] is false and
    [rooms[roomId].users.length] throws a [TypeError]: nothing has been
    changed and nothing emitted by then. *)
Definition join_voice_room_listener (socket roomId : string) (st : server)
  : completion (server * list effect) :=
  if finds_prototype_value (rooms st) roomId then Thrown
  else Returned (on_join_voice_room socket roomId st).

(** [socket.on("leave-voice-room", ...)].  When the lookup finds a value
    of [Object.prototype], [rooms[roomId].users.filter] throws after
    [socket.leave(roomId)] and the [catch] of the handler swallows the
    error: the branch [None]. *)
Definition on_leave_voice_room (env : environment) (socket roomId : string)
  (st : server) : server * list effect :=
  let adapter1 := socket_leave socket roomId (adapter st) in
  match rooms st !! roomId with
  | Some us =>
      let us' := filter (fun u => u ≠ socket) us in
      let rooms1 := <[roomId := us']> (rooms st) in
      let left := io_to adapter1 roomId (user_left socket) in
      if (length us' =? 0)%nat then
        ({| rooms := delete roomId rooms1; sockets := sockets st;
            adapter := adapter1 |},
         left :: spawn (finalize_on_leave env roomId))
      else
        ({| rooms := rooms1; sockets := sockets st; adapter := adapter1 |},
         [left])
  | None =>
      ({| rooms := rooms st; sockets := sockets st; adapter := adapter1 |},
       [])
  end.

(** The three relay handlers. *)
Definition on_relay_offer (socket roomId : string) (offer : blob)
  (to : string) (st : server) : server * list effect :=
  (st, [io_to (adapter st) to (voice_offer socket offer roomId)]).

Definition on_relay_answer (socket roomId : string) (answer : blob)
  (to : string) (st : server) : server * list effect :=
  (st, [io_to (adapter st) to (voice_answer socket answer roomId)]).

Definition on_relay_candidate (socket : string) (candidate : blob)
  (to : string) (st : server) : server * list effect :=
  (st, [io_to (adapter st) to (ice_candidate socket candidate)]).

(** One turn of the loop of the disconnect handler, on the registry and
    the effects so far.  A key that is no longer in the object is not
    visited. *)
Definition disconnect_room (env : environment) (socket : string)
  (a : gmap string (gset string))
  (acc : gmap string (list string) * list effect) (roomId : string)
  : gmap string (list string) * list effect :=
  match acc.1 !! roomId with
  | Some us =>
      let us' := filter (fun u => u ≠ socket) us in
      let rooms1 := <[roomId := us']> acc.1 in
      let out1 := acc.2 ++ [io_to a roomId (user_left socket)] in
      if (length us' =? 0)%nat then
        (delete roomId rooms1, out1 ++ spawn (finalize_on_disconnect env roomId))
      else (rooms1, out1)
  | None => acc
  end.

(** [socket.on("disconnect", ...)]; the socket has left every transport
    room by the time the listener runs. *)
Definition on_disconnect (env : environment) (socket : string) (st : server)
  : server * list effect :=
  let adapter1 := leaveAll socket (adapter st) in
  let res :=
    foldl (disconnect_room env socket adapter1) (rooms st, [])
          (keys (rooms st)) in
  ({| rooms := res.1; sockets := sockets st ∖ {[socket]};
      adapter := adapter1 |},
   res.2).

(** [io.on("connection", ...)]: the listener only registers the handlers;
    the transport has put the socket in the room of its own id. *)
Definition on_connection (socket : string) (st : server)
  : server * list effect :=
  ({| rooms := rooms st; sockets := {[socket]} ∪ sockets st;
      adapter := socket_join socket socket (adapter st) |},
   []).

(** One event.  A listener that throws leaves the server as it was. *)
Definition step (env : environment) (st : server) (ev : event)
  : server * list effect :=
  match ev with
  | connection socket => on_connection socket st
  | join_voice_room socket roomId =>
      match join_voice_room_listener socket roomId st with
      | Returned res => res
      | Thrown => (st, [])
      end
  | leave_voice_room socket roomId => on_leave_voice_room env socket roomId st
  | on_voice_offer socket roomId offer to =>
      on_relay_offer socket roomId offer to st
  | on_voice_answer socket roomId answer to =>
      on_relay_answer socket roomId answer to st
  | on_ice_candidate socket candidate to =>
      on_relay_candidate socket candidate to st
  | disconnect socket => on_disconnect env socket st
  end.

(** A run: the events are handled one after the other; the effects
    accumulate in order. *)
Definition run_step (env : environment) (acc : server * list effect)
  (ev : event) : server * list effect :=
  let r := step env acc.1 ev in (r.1, acc.2 ++ r.2).

Definition run (env : environment) (evs : list event) (st : server)
  : server * list effect :=
  foldl (run_step env) (st, []) evs.

Definition reachable (env : environment) (st : server) : Prop :=
  exists evs, (run env evs init).1 = st.

(** ** The older entry point, [src/api/index.ts]

    No limit, no membership test on join, no leave handler, no finalize
    hook; the relay handlers and the loop on disconnect are the same. *)
Module Api.

(** The body of the listener of ["join-voice-room"] when [rooms[roomId]]
    is an own property or [undefined]. *)
Definition on_join_voice_room (socket roomId : string) (st : server)
  : server * list effect :=
  let rooms1 :=
    match rooms st !! roomId with
    | None => <[roomId := []]> (rooms st)
    | Some _ => rooms st
    end in
  let us := default [] (rooms1 !! roomId) in
  let rooms2 := <[roomId := us ++ [socket]]> rooms1 in
  let adapter1 := socket_join socket roomId (adapter st) in
  ({| rooms := rooms2; sockets := sockets st; adapter := adapter1 |},
   [socket_to adapter1 socket roomId (user_joined socket)]).

(** [socket.on("join-voice-room", ...)]: [rooms[roomId].users.push]
    throws when the lookup finds a value of [Object.prototype]. *)
Definition join_voice_room_listener (socket roomId : string) (st : server)
  : completion (server * list effect) :=
  if finds_prototype_value (rooms st) roomId then Thrown
  else Returned (on_join_voice_room socket roomId st).

Definition disconnect_room (socket : string) (a : gmap string (gset string))
  (acc : gmap string (list string) * list effect) (roomId : string)
  : gmap string (list string) * list effect :=
  match acc.1 !! roomId with
  | Some us =>
      let us' := filter (fun u => u ≠ socket) us in
      let rooms1 := <[roomId := us']> acc.1 in
      let out1 := acc.2 ++ [io_to a roomId (user_left socket)] in
      if (length us' =? 0)%nat then (delete roomId rooms1, out1)
      else (rooms1, out1)
  | None => acc
  end.

Definition on_disconnect (socket : string) (st : server)
  : server * list effect :=
  let adapter1 := leaveAll socket (adapter st) in
  let res :=
    foldl (disconnect_room socket adapter1) (rooms st, [])
          (keys (rooms st)) in
  ({| rooms := res.1; sockets := sockets st ∖ {[socket]};
      adapter := adapter1 |},
   res.2).

(** An event without a listener is dropped. *)
Definition step (st : server) (ev : event) : server * list effect :=
  match ev with
  | connection socket => on_connection socket st
  | join_voice_room socket roomId =>
      match join_voice_room_listener socket roomId st with
      | Returned res => res
      | Thrown => (st, [])
      end
  | leave_voice_room _ _ => (st, [])
  | on_voice_offer socket roomId offer to =>
      on_relay_offer socket roomId offer to st
  | on_voice_answer socket roomId answer to =>
      on_relay_answer socket roomId answer to st
  | on_ice_candidate socket candidate to =>
      on_relay_candidate socket candidate to st
  | disconnect socket => on_disconnect socket st
  end.

Definition run_step (acc : server * list effect) (ev : event)
  : server * list effect :=
  let r := step acc.1 ev in (r.1, acc.2 ++ r.2).

Definition run (evs : list event) (st : server) : server * list effect :=
  foldl run_step (st, []) evs.

End Api.

(** ** Observations on a list of effects *)

Definition receives (id : string) (m : message) (effs : list effect) : Prop :=
  exists t rs, Emit t rs m ∈ effs /\ id ∈ rs.

Definition is_broadcast (room : string) (m : message) (e : effect) : bool :=
  match e with
  | Emit t _ m' => bool_decide (t = to_room room) && bool_decide (m' = m)
  | _ => false
  end.

(** How many times [m] was sent to the transport room [room]. *)
Definition broadcasts (room : string) (m : message) (effs : list effect)
  : nat :=
  length (List.filter (is_broadcast room m) effs).

Definition is_joined_notice (id : string) (e : effect) : bool :=
  match e with
  | Emit _ _ (user_joined id') => bool_decide (id' = id)
  | _ => false
  end.

Definition is_emit (e : effect) : bool :=
  match e with
  | Emit _ _ _ => true
  | _ => false
  end.

(** The emissions, without the requests. *)
Definition emissions (effs : list effect) : list effect :=
  List.filter is_emit effs.

(** The URLs POSTed to, in order. *)
Definition posts (effs : list effect) : list string :=
  omap (fun e => match e with Fetch_POST url => Some url | _ => None end) effs.

(** The POST the hook issues for a room, if it issues one: none without
    a base, and none for a room identifier on which [encodeURIComponent]
    throws. *)
Definition finalize_requests (env : environment) (roomId : string)
  : list string :=
  match truthy (RESUME_BASE env) with
  | Some base =>
      if unpaired_surrogate roomId then [] else [finalize_url base roomId]
  | None => []
  end.

(** ** Auxiliary definitions for the statements *)

(** What one turn of the disconnect loop leaves of a room's users. *)
Definition scrub (socket : string) (us : list string) : option (list string) :=
  let us' := filter (fun u => u ≠ socket) us in
  if (length us' =? 0)%nat then None else Some us'.

(** The loop body with the hook left open: the current server calls the
    finalize hook, the older entry point calls nothing. *)
Definition sweep_room (hook : string -> list effect) (socket : string)
  (a : gmap string (gset string))
  (acc : gmap string (list string) * list effect) (roomId : string)
  : gmap string (list string) * list effect :=
  match acc.1 !! roomId with
  | Some us =>
      let us' := filter (fun u => u ≠ socket) us in
      let rooms1 := <[roomId := us']> acc.1 in
      let out1 := acc.2 ++ [io_to a roomId (user_left socket)] in
      if (length us' =? 0)%nat then (delete roomId rooms1, out1 ++ hook roomId)
      else (rooms1, out1)
  | None => acc
  end.

(** The effects of the loop for one room of the registry [rs]. *)
Definition room_effects (hook : string -> list effect) (socket : string)
  (a : gmap string (gset string)) (rs : gmap string (list string))
  (roomId : string) : list effect :=
  match rs !! roomId with
  | Some us =>
      io_to a roomId (user_left socket)
      :: (if (length (filter (fun u => u ≠ socket) us) =? 0)%nat
          then hook roomId else [])
  | None => []
  end.

Definition no_empty_room (rs : gmap string (list string)) : Prop :=
  forall r us, rs !! r = Some us -> us ≠ [].

Definition within_limit (rs : gmap string (list string)) : Prop :=
  forall r us, rs !! r = Some us -> (length us <= 10)%nat.

Definition no_duplicates (rs : gmap string (list string)) : Prop :=
  forall r us, rs !! r = Some us -> NoDup us.

(** The inverse of [encodeURIComponent] on its image. *)
Definition hex_value (c : ascii) : option nat :=
  if in_range 48 57 c then Some (nat_of_ascii c - 48)
  else if in_range 65 70 c then Some (nat_of_ascii c - 55)
  else None.

Fixpoint percent_decode (s : string) : option string :=
  match s with
  | EmptyString => Some EmptyString
  | String c s' =>
      if Ascii.eqb c "%" then
        match s' with
        | String h (String l s'') =>
            match hex_value h, hex_value l, percent_decode s'' with
            | Some hi, Some lo, Some rest =>
                Some (String (ascii_of_nat (16 * hi + lo)) rest)
            | _, _, _ => None
            end
        | _ => None
        end
      else
        match percent_decode s' with
        | Some rest => Some (String c rest)
        | None => None
        end
  end.

Fixpoint ends_with_slash (s : string) : bool :=
  match s with
  | EmptyString => false
  | String c EmptyString => is_slash c
  | String _ s' => ends_with_slash s'
  end.

(** The registry and the transport rooms agree: a socket is in the
    transport room of a voice room exactly when it is one of its users,
    and the only other membership is that of a connected socket in the
    room of its own id. *)
Definition adapter_sound (st : server) : Prop :=
  forall r c, c ∈ members (adapter st) r ->
    c ∈ users st r \/ (c = r /\ c ∈ sockets st).

Definition adapter_complete (st : server) : Prop :=
  forall r c, c ∈ users st r -> c ∈ members (adapter st) r.

Definition consistent (st : server) : Prop :=
  no_empty_room (rooms st) /\ within_limit (rooms st)
  /\ no_duplicates (rooms st) /\ adapter_sound st /\ adapter_complete st.

(** The emissions of a list of effects, each with the sockets it
    reaches. *)
Definition sent (effs : list effect)
  : list (target * list string * message) :=
  omap (fun e => match e with
                 | Emit t rs m => Some (t, elements rs, m)
                 | _ => None
                 end) effs.

Definition is_room_full (e : effect) : bool :=
  match e with
  | Emit _ _ (room_full _ _) => true
  | _ => false
  end.

(** The target and the forwarded message of a relay event. *)
Definition relay_of (ev : event) : option (string * message) :=
  match ev with
  | on_voice_offer socket roomId offer to =>
      Some (to, voice_offer socket offer roomId)
  | on_voice_answer socket roomId answer to =>
      Some (to, voice_answer socket answer roomId)
  | on_ice_candidate socket candidate to =>
      Some (to, ice_candidate socket candidate)
  | _ => None
  end.

(** No room of the registry has a name inherited from
    [Object.prototype]. *)
Definition own_names (st : server) : Prop :=
  forall r, is_Some (rooms st !! r) -> inherited r = false.

(** ** Concrete environments and scenarios *)

(** No [RESUME_BASE]; the network is down. *)
Definition quiet : environment :=
  {| RESUME_BASE := None; network := fun _ => fetch_rejects |}.

(** [RESUME_BASE] set, with trailing slashes; the remote end answers 500
    with a body that is not JSON. *)
Definition resume_down : environment :=
  {| RESUME_BASE := Some "https://resume.example.org//";
     network := fun _ =>
       fetch_resolves {| status := 500; json_ok := false; text_ok := false |} |}.



Definition eleven : list string :=
  ["c0"; "c1"; "c2"; "c3"; "c4"; "c5"; "c6"; "c7"; "c8"; "c9"; "c10"].

(** Eleven sockets connect, then each joins the room ["r"]. *)
Definition eleven_joins : list event :=
  (connection <$> eleven) ++ ((fun c => join_voice_room c "r") <$> eleven).

(** One socket connects and joins the room ["r"] twice. *)
Definition double_join : list event :=
  [connection "c1"; join_voice_room "c1" "r"; join_voice_room "c1" "r"].

(** ["c1"] is alone in the room ["a"]; ["c2"] is connected and has joined
    nothing. *)
Definition bystander : list event :=
  [connection "c1"; join_voice_room "c1" "a"; connection "c2"].

(** ["c1"] and ["c2"] are connected; ["c2"] has sent [leave-voice-room]
    with its own id as the room. *)
Definition own_room_left : list event :=
  [connection "c1"; connection "c2"; leave_voice_room "c2" "c2"].

(** ** Runs in which every event comes from a connected socket

    Socket.IO calls the listeners of a socket only between its connection
    and its disconnect, and gives a new id to every connection. *)

Definition sender (ev : event) : string :=
  match ev with
  | connection socket => socket
  | join_voice_room socket _ => socket
  | leave_voice_room socket _ => socket
  | on_voice_offer socket _ _ _ => socket
  | on_voice_answer socket _ _ _ => socket
  | on_ice_candidate socket _ _ => socket
  | disconnect socket => socket
  end.

Definition allowed (live : gset string) (ev : event) : bool :=
  match ev with
  | connection socket => bool_decide (socket ∉ live)
  | _ => bool_decide (sender ev ∈ live)
  end.

Definition live_after (live : gset string) (ev : event) : gset string :=
  match ev with
  | connection socket => {[socket]} ∪ live
  | disconnect socket => live ∖ {[socket]}
  | _ => live
  end.

Fixpoint well_formed_from (live : gset string) (evs : list event) : bool :=
  match evs with
  | [] => true
  | ev :: evs' => allowed live ev && well_formed_from (live_after live ev) evs'
  end.

(** The joins of a room by a list of sockets, in order. *)
Definition joins (r : string) (cs : list string) : list event :=
  (fun c => join_voice_room c r) <$> cs.

(** ** The start-up code: allowed origins and the origin of the log line *)

(** [s.split(",")] *)
Fixpoint split_comma (s : string) : list string :=
  match s with
  | EmptyString => [EmptyString]
  | String c s' =>
      if Ascii.eqb c "," then EmptyString :: split_comma s'
      else match split_comma s' with
           | p :: ps => String c p :: ps
           | [] => [String c EmptyString]
           end
  end.

Definition byte_is (n : nat) (c : ascii) : bool := (nat_of_ascii c =? n)%nat.

(** The white space and line terminators of ECMAScript, in UTF-8: the
    characters U+0009 to U+000D and U+0020 take one byte, U+00A0 takes
    two, and U+1680, U+2000 to U+200A, U+2028, U+2029, U+202F, U+205F,
    U+3000 and U+FEFF take three. *)
Definition ws1 (c : ascii) : bool := in_range 9 13 c || byte_is 32 c.

Definition ws2 (c1 c2 : ascii) : bool := byte_is 194 c1 && byte_is 160 c2.

Definition ws3 (c1 c2 c3 : ascii) : bool :=
  byte_is 225 c1 && byte_is 154 c2 && byte_is 128 c3
  || byte_is 226 c1 && byte_is 128 c2
     && (in_range 128 138 c3 || in_range 168 169 c3 || byte_is 175 c3)
  || byte_is 226 c1 && byte_is 129 c2 && byte_is 159 c3
  || byte_is 227 c1 && byte_is 128 c2 && byte_is 128 c3
  || byte_is 239 c1 && byte_is 187 c2 && byte_is 191 c3.

(** [s.trimStart()] *)
Fixpoint trimStart (s : string) : string :=
  match s with
  | EmptyString => EmptyString
  | String c1 s1 =>
      if ws1 c1 then trimStart s1
      else match s1 with
           | EmptyString => s
           | String c2 s2 =>
               if ws2 c1 c2 then trimStart s2
               else match s2 with
                    | EmptyString => s
                    | String c3 s3 =>
                        if ws3 c1 c2 c3 then trimStart s3 else s
                    end
           end
  end.

(** [s.trimEnd()]: the string is cut at the first position from which
    only white space remains. *)
Fixpoint trimEnd (s : string) : string :=
  match s with
  | EmptyString => EmptyString
  | String c s' =>
      if String.eqb (trimStart (String c s')) EmptyString then EmptyString
      else String c (trimEnd s')
  end.

(** [s.trim()] *)
Definition trim (s : string) : string := trimEnd (trimStart s).

(** [process.env.ORIGIN?.split(",").map(s => s.trim())], the [origin] of
    the CORS options: [None] stands for [undefined]. *)
Definition cors_origin (ORIGIN : option string) : option (list string) :=
  match ORIGIN with
  | None => None
  | Some s => Some (trim <$> split_comma s)
  end.

(** The origin shown in the start-up line:
    [rawOrigin = process.env.DIR || ''], then the first piece of
    [rawOrigin.split(',')], trimmed, when that piece is not empty, and
    [rawOrigin || 'http://localhost'] otherwise. *)
Definition log_origin (DIR : option string) : string :=
  let rawOrigin := match truthy DIR with Some d => d | None => EmptyString end in
  match split_comma rawOrigin with
  | String c p :: _ => trim (String c p)
  | _ => match rawOrigin with
         | EmptyString => "http://localhost"
         | _ => rawOrigin
         end
  end.

(** One white-space character at the start of a string, at its end. *)
Definition starts_with_ws (s : string) : bool :=
  match s with
  | EmptyString => false
  | String c1 s1 =>
      ws1 c1
      || match s1 with
         | EmptyString => false
         | String c2 s2 =>
             ws2 c1 c2
             || match s2 with
                | EmptyString => false
                | String c3 _ => ws3 c1 c2 c3
                end
         end
  end.

Definition is_ws_point (s : string) : bool :=
  match s with
  | String c1 EmptyString => ws1 c1
  | String c1 (String c2 EmptyString) => ws2 c1 c2
  | String c1 (String c2 (String c3 EmptyString)) => ws3 c1 c2 c3
  | _ => false
  end.

Fixpoint ends_with_ws (s : string) : bool :=
  match s with
  | EmptyString => false
  | String c s' => is_ws_point s || ends_with_ws s'
  end.

Fixpoint count_commas (s : string) : nat :=
  match s with
  | EmptyString => 0
  | String c s' => (if Ascii.eqb c "," then 1 else 0) + count_commas s'
  end.

Definition no_comma (s : string) : bool :=
  string_forallb (fun c => negb (Ascii.eqb c ",")) s.

(** * Properties *)

(** ** The finalize URL *)

Lemma all_slashes_slashes (n : nat) : all_slashes (slashes n) = true.
Proof. induction n as [|n IH]; [reflexivity|exact IH]. Qed.

Lemma all_slashes_app (s t : string) :
  all_slashes (s +:+ t) = all_slashes s && all_slashes t.
Proof.
  induction s as [|c s IH]; simpl; [reflexivity|].
  rewrite IH. apply andb_assoc.
Qed.

Lemma replace_all_slashes (t : string) :
  all_slashes t = true -> replace_trailing_slashes t = EmptyString.
Proof.
  destruct t as [|c t]; simpl; [reflexivity|].
  intros H. rewrite H. reflexivity.
Qed.

Lemma replace_trailing_slashes_app (s t : string) :
  all_slashes t = true ->
  replace_trailing_slashes (s +:+ t) = replace_trailing_slashes s.
Proof.
  intros Ht. induction s as [|c s IH]; simpl.
  - apply replace_all_slashes, Ht.
  - rewrite all_slashes_app, Ht, andb_true_r, IH. reflexivity.
Qed.

Lemma append_nil_l (s : string) : EmptyString +:+ s = s.
Proof. reflexivity. Qed.

Lemma append_cons (c : ascii) (s t : string) :
  String c s +:+ t = String c (s +:+ t).
Proof. reflexivity. Qed.

Lemma replace_trailing_slashes_split (s : string) :
  exists k, s = replace_trailing_slashes s +:+ slashes k.
Proof.
  induction s as [|c s [k IH]]; simpl.
  - exists 0. reflexivity.
  - destruct (is_slash c && all_slashes s) eqn:E.
    + apply andb_prop in E as [Ec Es].
      apply Ascii.eqb_eq in Ec. subst c.
      rewrite (replace_all_slashes s Es), append_nil_l in IH.
      exists (S k). rewrite append_nil_l. simpl. f_equal. exact IH.
    + exists k. rewrite append_cons. f_equal. exact IH.
Qed.

Lemma replace_empty_all_slashes (s : string) :
  replace_trailing_slashes s = EmptyString -> all_slashes s = true.
Proof.
  destruct s as [|c s]; simpl; [reflexivity|].
  destruct (is_slash c && all_slashes s); [reflexivity|discriminate].
Qed.

Lemma replace_trailing_slashes_clean (s : string) :
  ends_with_slash (replace_trailing_slashes s) = false.
Proof.
  induction s as [|c s IH]; [reflexivity|].
  simpl. destruct (is_slash c && all_slashes s) eqn:E; [reflexivity|].
  destruct (replace_trailing_slashes s) as [|d t] eqn:Er.
  - rewrite (replace_empty_all_slashes s Er), andb_true_r in E. exact E.
  - exact IH.
Qed.

Lemma chunk_safe (c : ascii) :
  string_forallb uri_safe
    (if uri_unreserved c then String c EmptyString else percent_encode c)
  = true.
Proof. destruct c as [[] [] [] [] [] [] [] []]; vm_compute; reflexivity. Qed.

Lemma string_forallb_app (p : ascii -> bool) (s t : string) :
  string_forallb p (s +:+ t) = string_forallb p s && string_forallb p t.
Proof.
  induction s as [|c s IH]; simpl; [reflexivity|].
  rewrite IH. apply andb_assoc.
Qed.

Lemma encodeURIComponent_safe (s : string) :
  string_forallb uri_safe (encodeURIComponent s) = true.
Proof.
  induction s as [|c s IH]; [reflexivity|].
  simpl. rewrite string_forallb_app, chunk_safe, IH. reflexivity.
Qed.

Lemma percent_decode_plain (c : ascii) (s : string) :
  Ascii.eqb c "%" = false ->
  percent_decode (String c s)
  = match percent_decode s with
    | Some rest => Some (String c rest)
    | None => None
    end.
Proof. intros H. simpl. rewrite H. reflexivity. Qed.

Lemma percent_decode_escape (h l : ascii) (s : string) :
  percent_decode (String "%" (String h (String l s)))
  = match hex_value h, hex_value l, percent_decode s with
    | Some hi, Some lo, Some rest =>
        Some (String (ascii_of_nat (16 * hi + lo)) rest)
    | _, _, _ => None
    end.
Proof. reflexivity. Qed.

Lemma chunk_shape (c : ascii) :
  (uri_unreserved c = true /\ Ascii.eqb c "%" = false)
  \/ (uri_unreserved c = false
      /\ hex_value (hex_digit (nat_of_ascii c / 16))
         = Some (nat_of_ascii c / 16)
      /\ hex_value (hex_digit (nat_of_ascii c mod 16))
         = Some (nat_of_ascii c mod 16)
      /\ ascii_of_nat (16 * (nat_of_ascii c / 16) + nat_of_ascii c mod 16)
         = c).
Proof.
  destruct c as [[] [] [] [] [] [] [] []]; vm_compute;
    first [ left; split; reflexivity | right; repeat split; reflexivity ].
Qed.

Lemma percent_decode_chunk (c : ascii) (s : string) :
  percent_decode
    ((if uri_unreserved c then String c EmptyString else percent_encode c)
     +:+ s)
  = match percent_decode s with
    | Some rest => Some (String c rest)
    | None => None
    end.
Proof.
  destruct (chunk_shape c) as [[U P]|(U & Hh & Hl & Hc)]; rewrite U.
  - rewrite append_cons, append_nil_l. apply percent_decode_plain, P.
  - unfold percent_encode. rewrite !append_cons, append_nil_l.
    rewrite percent_decode_escape, Hh, Hl, Hc. reflexivity.
Qed.

Lemma percent_decode_encode (s : string) :
  percent_decode (encodeURIComponent s) = Some s.
Proof.
  induction s as [|c s IH]; [reflexivity|].
  cbn [encodeURIComponent]. rewrite percent_decode_chunk, IH. reflexivity.
Qed.

(** C10.  The URL of the finalize request does not depend on how many
    slashes end the configured base: the base is cut before its trailing
    run of slashes (what is left ends with none) and the fixed path is
    appended.  The room identifier goes into the query string through
    [encodeURIComponent]: only unreserved characters and percent escapes
    appear there, and the identifier can be read back from them. *)
Theorem finalize_url_ignores_trailing_slashes (b r : string) (n : nat) :
  finalize_url (b +:+ slashes n) r = finalize_url b r
  /\ finalize_url b r
     = replace_trailing_slashes b +:+ "/api/audio/finalize?roomId="
       +:+ encodeURIComponent r
  /\ ends_with_slash (replace_trailing_slashes b) = false
  /\ (exists k, b = replace_trailing_slashes b +:+ slashes k)
  /\ string_forallb uri_safe (encodeURIComponent r) = true
  /\ percent_decode (encodeURIComponent r) = Some r.
Proof.
  split; [|split; [|split; [|split; [|split]]]].
  - unfold finalize_url.
    rewrite (replace_trailing_slashes_app b (slashes n) (all_slashes_slashes n)).
    reflexivity.
  - reflexivity.
  - apply replace_trailing_slashes_clean.
  - apply replace_trailing_slashes_split.
  - apply encodeURIComponent_safe.
  - apply percent_decode_encode.
Qed.

(** ** The finalize hook *)

Lemma finalize_on_leave_runs (env : environment) (r : string)
  (log : list string) :
  finalize_on_leave env r log = (log ++ finalize_requests env r, Returned tt).
Proof.
  unfold finalize_on_leave, finalize_requests.
  destruct (truthy (RESUME_BASE env)) as [base|]; cbn.
  - unfold try_catch, tryFinalize, finalize_url_template,
      encodeURIComponent_call, mbind, async_bind, fetch, mret, async_ret,
      resp_json, resp_text.
    destruct (unpaired_surrogate r); [rewrite app_nil_r; reflexivity|].
    fold (finalize_url base r).
    destruct (network env (finalize_url base r)) as [|resp]; [reflexivity|].
    destruct (json_ok resp), (text_ok resp); reflexivity.
  - unfold try_catch, mret, async_ret. rewrite app_nil_r. reflexivity.
Qed.

Lemma finalize_on_disconnect_runs (env : environment) (r : string)
  (log : list string) :
  finalize_on_disconnect env r log
  = (log ++ finalize_requests env r, Returned tt).
Proof.
  unfold finalize_on_disconnect, finalize_requests.
  destruct (truthy (RESUME_BASE env)) as [base|]; cbn.
  - unfold try_catch, finalize_url_template, encodeURIComponent_call,
      mbind, async_bind, fetch, mret, async_ret, resp_json, resp_text.
    destruct (unpaired_surrogate r); [rewrite app_nil_r; reflexivity|].
    fold (finalize_url base r).
    destruct (network env (finalize_url base r)) as [|resp]; [reflexivity|].
    destruct (json_ok resp), (text_ok resp); reflexivity.
  - unfold try_catch, mret, async_ret. rewrite app_nil_r. reflexivity.
Qed.

Lemma spawn_finalize_on_leave (env : environment) (r : string) :
  spawn (finalize_on_leave env r) = Fetch_POST <$> finalize_requests env r.
Proof. unfold spawn. rewrite finalize_on_leave_runs. reflexivity. Qed.

Lemma spawn_finalize_on_disconnect (env : environment) (r : string) :
  spawn (finalize_on_disconnect env r)
  = Fetch_POST <$> finalize_requests env r.
Proof. unfold spawn. rewrite finalize_on_disconnect_runs. reflexivity. Qed.

Lemma finalize_requests_short (env : environment) (r : string) :
  (length (finalize_requests env r) <= 1)%nat.
Proof.
  unfold finalize_requests. destruct (truthy (RESUME_BASE env)); [|simpl; lia].
  destruct (unpaired_surrogate r); simpl; lia.
Qed.

Lemma posts_fetches (urls : list string) : posts (Fetch_POST <$> urls) = urls.
Proof.
  unfold posts. induction urls as [|u urls IH]; [reflexivity|].
  cbn. rewrite IH. reflexivity.
Qed.

Lemma posts_app (l1 l2 : list effect) : posts (l1 ++ l2) = posts l1 ++ posts l2.
Proof. unfold posts. apply omap_app. Qed.

(** ** The loop of the disconnect handler *)

Lemma foldl_pointwise {A B : Type} (f g : B -> A -> B) (l : list A) :
  (forall b a, f b a = g b a) -> forall b, foldl f b l = foldl g b l.
Proof.
  intros Hfg. induction l as [|a l IH]; intros b; [reflexivity|].
  simpl. rewrite Hfg. apply IH.
Qed.

Lemma bind_agree {A B : Type} (f g : A -> list B) (l : list A) :
  (forall x, x ∈ l -> f x = g x) -> l ≫= f = l ≫= g.
Proof.
  induction l as [|x l IH]; intros H; [reflexivity|].
  cbn. rewrite (H x) by apply list_elem_of_here.
  rewrite IH; [reflexivity|].
  intros y Hy. apply H, list_elem_of_further, Hy.
Qed.

Lemma keys_spec (rs : gmap string (list string)) (r : string) :
  r ∈ keys rs <-> is_Some (rs !! r).
Proof.
  unfold keys. rewrite list_elem_of_fmap. split.
  - intros [[k us] [-> Hin]]. apply elem_of_map_to_list in Hin. eauto.
  - intros [us Hus]. exists (r, us). split; [reflexivity|].
    apply elem_of_map_to_list, Hus.
Qed.

Lemma keys_NoDup (rs : gmap string (list string)) : NoDup (keys rs).
Proof. apply NoDup_fst_map_to_list. Qed.

(** The loop for a fixed hook, socket and transport: one turn touches the
    entry of its own key only, so over distinct keys the turns do not see
    each other. *)
Section Sweep.

Variable hook : string -> list effect.
Variable socket : string.
Variable a : gmap string (gset string).

Lemma sweep_room_lookup (acc : gmap string (list string) * list effect)
  (k r : string) :
  (sweep_room hook socket a acc k).1 !! r
  = if decide (r = k) then acc.1 !! k ≫= scrub socket else acc.1 !! r.
Proof.
  unfold sweep_room, scrub.
  destruct (acc.1 !! k) as [us|] eqn:Hk; cbn.
  - destruct (length (filter (fun u => u ≠ socket) us) =? 0)%nat; cbn;
      destruct (decide (r = k)) as [->|Hne].
    + rewrite delete_insert_eq. apply lookup_delete_eq.
    + rewrite delete_insert_eq. rewrite lookup_delete_ne by congruence.
      reflexivity.
    + apply lookup_insert_eq.
    + rewrite lookup_insert_ne by congruence. reflexivity.
  - destruct (decide (r = k)) as [->|Hne]; [exact Hk|reflexivity].
Qed.

Lemma sweep_room_effects (acc : gmap string (list string) * list effect)
  (k : string) :
  (sweep_room hook socket a acc k).2
  = acc.2 ++ room_effects hook socket a acc.1 k.
Proof.
  unfold sweep_room, room_effects.
  destruct (acc.1 !! k) as [us|]; cbn.
  - destruct (length (filter (fun u => u ≠ socket) us) =? 0)%nat; cbn.
    + rewrite <- app_assoc. reflexivity.
    + reflexivity.
  - rewrite app_nil_r. reflexivity.
Qed.

Lemma room_effects_agree (rs rs' : gmap string (list string)) (r : string) :
  rs' !! r = rs !! r ->
  room_effects hook socket a rs' r = room_effects hook socket a rs r.
Proof. unfold room_effects. intros ->. reflexivity. Qed.

Lemma sweep_fold (ks : list string) :
  NoDup ks ->
  forall acc : gmap string (list string) * list effect,
    (forall r,
        (foldl (sweep_room hook socket a) acc ks).1 !! r
        = if decide (r ∈ ks) then acc.1 !! r ≫= scrub socket else acc.1 !! r)
    /\ (foldl (sweep_room hook socket a) acc ks).2
       = acc.2 ++ (ks ≫= room_effects hook socket a acc.1).
Proof.
  induction 1 as [|k ks Hk Hks IH]; intros acc.
  - split; [intros r|].
    + rewrite decide_False by apply not_elem_of_nil. reflexivity.
    + cbn. rewrite app_nil_r. reflexivity.
  - cbn [foldl].
    destruct (IH (sweep_room hook socket a acc k)) as [IH1 IH2].
    split; [intros r|].
    + rewrite IH1, !sweep_room_lookup.
      destruct (decide (r = k)) as [->|Hne].
      * rewrite decide_False by exact Hk.
        rewrite decide_True by apply list_elem_of_here. reflexivity.
      * destruct (decide (r ∈ ks)) as [Hin|Hnin].
        -- rewrite decide_True by (apply list_elem_of_further, Hin).
           reflexivity.
        -- rewrite decide_False; [reflexivity|].
           intros [->|Hin]%elem_of_cons; [congruence|contradiction].
    + rewrite IH2, sweep_room_effects. cbn. rewrite <- app_assoc.
      f_equal. f_equal.
      apply bind_agree. intros r Hr. apply room_effects_agree.
      rewrite sweep_room_lookup.
      destruct (decide (r = k)) as [->|]; [contradiction|reflexivity].
Qed.

(** Over all the keys of the registry the loop is a map over the rooms. *)
Lemma sweep_all (rs : gmap string (list string)) :
  foldl (sweep_room hook socket a) (rs, []) (keys rs)
  = (omap (scrub socket) rs, keys rs ≫= room_effects hook socket a rs).
Proof.
  destruct (sweep_fold (keys rs) (keys_NoDup rs) (rs, [])) as [H1 H2].
  destruct (foldl (sweep_room hook socket a) (rs, []) (keys rs))
    as [rs' out] eqn:E.
  cbn in H1, H2. f_equal; [|exact H2].
  apply map_eq. intros r. rewrite H1, lookup_omap.
  destruct (decide (r ∈ keys rs)) as [Hin|Hnin]; [reflexivity|].
  destruct (rs !! r) as [us|] eqn:Hr; [|reflexivity].
  exfalso. apply Hnin, keys_spec. eauto.
Qed.

End Sweep.

Lemma disconnect_room_sweep (env : environment) (socket : string)
  (a : gmap string (gset string))
  (acc : gmap string (list string) * list effect) (r : string) :
  disconnect_room env socket a acc r
  = sweep_room (fun r => Fetch_POST <$> finalize_requests env r) socket a acc r.
Proof.
  unfold disconnect_room, sweep_room.
  rewrite spawn_finalize_on_disconnect. reflexivity.
Qed.

Lemma api_disconnect_room_sweep (socket : string)
  (a : gmap string (gset string))
  (acc : gmap string (list string) * list effect) (r : string) :
  Api.disconnect_room socket a acc r = sweep_room (fun _ => []) socket a acc r.
Proof.
  unfold Api.disconnect_room, sweep_room.
  destruct (acc.1 !! r); [|reflexivity].
  rewrite app_nil_r. reflexivity.
Qed.

Lemma on_disconnect_spec (env : environment) (socket : string) (st : server) :
  on_disconnect env socket st
  = ({| rooms := omap (scrub socket) (rooms st);
        sockets := sockets st ∖ {[socket]};
        adapter := leaveAll socket (adapter st) |},
     keys (rooms st)
       ≫= room_effects (fun r => Fetch_POST <$> finalize_requests env r)
            socket (leaveAll socket (adapter st)) (rooms st)).
Proof.
  unfold on_disconnect.
  rewrite (foldl_pointwise _ _ _ (disconnect_room_sweep env socket _)).
  rewrite sweep_all. reflexivity.
Qed.

Lemma api_on_disconnect_spec (socket : string) (st : server) :
  Api.on_disconnect socket st
  = ({| rooms := omap (scrub socket) (rooms st);
        sockets := sockets st ∖ {[socket]};
        adapter := leaveAll socket (adapter st) |},
     keys (rooms st)
       ≫= room_effects (fun _ => []) socket (leaveAll socket (adapter st))
            (rooms st)).
Proof.
  unfold Api.on_disconnect.
  rewrite (foldl_pointwise _ _ _ (api_disconnect_room_sweep socket _)).
  rewrite sweep_all. reflexivity.
Qed.

(** ** The three cases of a join, and the two of a leave *)

#[local] Arguments Nat.leb : simpl never.
#[local] Arguments Nat.eqb : simpl never.

Lemma server_eta (st : server) :
  {| rooms := rooms st; sockets := sockets st; adapter := adapter st |} = st.
Proof. destruct st. reflexivity. Qed.

Lemma on_join_full (socket r : string) (st : server) :
  (10 <= length (users st r))%nat ->
  on_join_voice_room socket r st = (st, [socket_emit socket (room_full r 10)]).
Proof.
  unfold on_join_voice_room, users.
  destruct (rooms st !! r) as [us|] eqn:E; cbn; intros Hlen.
  - rewrite E. cbn.
    destruct (10 <=? length us)%nat eqn:L.
    + rewrite server_eta. reflexivity.
    + apply Nat.leb_gt in L. lia.
  - lia.
Qed.

Lemma on_join_member (socket r : string) (st : server) :
  (length (users st r) < 10)%nat -> socket ∈ users st r ->
  on_join_voice_room socket r st
  = ({| rooms := rooms st; sockets := sockets st;
        adapter := socket_join socket r (adapter st) |}, []).
Proof.
  unfold on_join_voice_room, users.
  destruct (rooms st !! r) as [us|] eqn:E; cbn; intros Hlen Hin.
  - rewrite E. cbn.
    destruct (10 <=? length us)%nat eqn:L; [apply Nat.leb_le in L; lia|].
    rewrite bool_decide_eq_true_2 by exact Hin. reflexivity.
  - apply not_elem_of_nil in Hin. contradiction.
Qed.

Lemma on_join_new (socket r : string) (st : server) :
  (length (users st r) < 10)%nat -> socket ∉ users st r ->
  on_join_voice_room socket r st
  = ({| rooms := <[r := users st r ++ [socket]]> (rooms st);
        sockets := sockets st;
        adapter := socket_join socket r (adapter st) |},
     [socket_to (socket_join socket r (adapter st)) socket r
        (user_joined socket)]).
Proof.
  unfold on_join_voice_room, users.
  destruct (rooms st !! r) as [us|] eqn:E; cbn; intros Hlen Hin.
  - rewrite E. cbn.
    destruct (10 <=? length us)%nat eqn:L; [apply Nat.leb_le in L; lia|].
    rewrite bool_decide_eq_false_2 by exact Hin. reflexivity.
  - rewrite lookup_insert_eq. cbn. rewrite insert_insert_eq. reflexivity.
Qed.

Lemma on_leave_unknown (env : environment) (socket r : string) (st : server) :
  rooms st !! r = None ->
  on_leave_voice_room env socket r st
  = ({| rooms := rooms st; sockets := sockets st;
        adapter := socket_leave socket r (adapter st) |}, []).
Proof. unfold on_leave_voice_room. intros ->. reflexivity. Qed.

Lemma on_leave_known (env : environment) (socket r : string) (st : server)
  (us : list string) :
  rooms st !! r = Some us ->
  on_leave_voice_room env socket r st
  = ({| rooms := match scrub socket us with
                 | Some us' => <[r := us']> (rooms st)
                 | None => delete r (rooms st)
                 end;
        sockets := sockets st;
        adapter := socket_leave socket r (adapter st) |},
     io_to (socket_leave socket r (adapter st)) r (user_left socket)
     :: match scrub socket us with
        | Some _ => []
        | None => Fetch_POST <$> finalize_requests env r
        end).
Proof.
  unfold on_leave_voice_room, scrub. intros ->.
  rewrite spawn_finalize_on_leave.
  destruct (length (filter (fun u => u ≠ socket) us) =? 0)%nat.
  - rewrite delete_insert_eq. reflexivity.
  - reflexivity.
Qed.

(** ** Transport rooms after a join, a leave and a disconnect *)

Lemma members_socket_join (c r r' : string) (a : gmap string (gset string)) :
  members (socket_join c r a) r'
  = if decide (r' = r) then {[c]} ∪ members a r else members a r'.
Proof.
  unfold socket_join. unfold members at 1.
  destruct (decide (r' = r)) as [->|Hne].
  - rewrite lookup_insert_eq. reflexivity.
  - rewrite lookup_insert_ne by congruence. reflexivity.
Qed.

Lemma members_socket_leave (c r r' : string) (a : gmap string (gset string)) :
  members (socket_leave c r a) r'
  = if decide (r' = r) then members a r ∖ {[c]} else members a r'.
Proof.
  unfold socket_leave. unfold members at 1.
  destruct (decide (r' = r)) as [->|Hne].
  - rewrite lookup_insert_eq. reflexivity.
  - rewrite lookup_insert_ne by congruence. reflexivity.
Qed.

Lemma members_leaveAll (c r : string) (a : gmap string (gset string)) :
  members (leaveAll c a) r = members a r ∖ {[c]}.
Proof.
  unfold leaveAll, members. rewrite lookup_fmap.
  destruct (a !! r); cbn; [reflexivity|].
  symmetry. apply empty_difference_L.
Qed.

(** ** What [scrub] keeps *)

Lemma scrub_users (c : string) (us : list string) :
  default [] (scrub c us) = filter (fun u => u ≠ c) us.
Proof.
  unfold scrub.
  destruct (length (filter (fun u => u ≠ c) us) =? 0)%nat eqn:E; cbn;
    [|reflexivity].
  apply Nat.eqb_eq in E. symmetry. apply nil_length_inv, E.
Qed.

Lemma scrub_Some (c : string) (us us' : list string) :
  scrub c us = Some us' -> us' = filter (fun u => u ≠ c) us /\ us' ≠ [].
Proof.
  unfold scrub.
  destruct (length (filter (fun u => u ≠ c) us) =? 0)%nat eqn:E;
    [discriminate|].
  intros Heq. injection Heq as <-. split; [reflexivity|].
  apply Nat.eqb_neq in E. intros H. rewrite H in E. apply E. reflexivity.
Qed.

Lemma scrub_None (c : string) (us : list string) :
  scrub c us = None <-> filter (fun u => u ≠ c) us = [].
Proof.
  unfold scrub.
  destruct (length (filter (fun u => u ≠ c) us) =? 0)%nat eqn:E.
  - apply Nat.eqb_eq in E. split; [intros _; apply nil_length_inv, E|done].
  - apply Nat.eqb_neq in E. split; [discriminate|].
    intros H. rewrite H in E. contradiction E. reflexivity.
Qed.

Lemma filter_absent (c : string) (us : list string) :
  c ∉ us -> filter (fun u => u ≠ c) us = us.
Proof.
  induction us as [|u us IH]; intros Hc; [reflexivity|].
  apply not_elem_of_cons in Hc as [Hne Hc].
  rewrite filter_cons_True by congruence. rewrite IH by exact Hc.
  reflexivity.
Qed.

Lemma scrub_absent (c : string) (us : list string) :
  c ∉ us -> us ≠ [] -> scrub c us = Some us.
Proof.
  intros Hc Hne. unfold scrub. rewrite (filter_absent c us Hc).
  destruct us as [|u us]; [contradiction|reflexivity].
Qed.

Lemma filter_length_le (c : string) (us : list string) :
  (length (filter (fun u => u ≠ c) us) <= length us)%nat.
Proof. apply length_filter. Qed.

Lemma elem_of_scrubbed (c x : string) (us : list string) :
  x ∈ filter (fun u => u ≠ c) us <-> x ≠ c /\ x ∈ us.
Proof. rewrite list_elem_of_filter. reflexivity. Qed.

(** ** The users of a room after each handler *)

Lemma users_after_leave (env : environment) (c r r' : string) (st : server) :
  users (on_leave_voice_room env c r st).1 r'
  = if decide (r' = r) then filter (fun u => u ≠ c) (users st r)
    else users st r'.
Proof.
  unfold users at 1.
  destruct (rooms st !! r) as [us|] eqn:E.
  - rewrite (on_leave_known env c r st us E). cbn [fst rooms].
    unfold users. rewrite E. cbn [default from_option id].
    destruct (decide (r' = r)) as [->|Hne].
    + destruct (scrub c us) as [us'|] eqn:S.
      * rewrite lookup_insert_eq. cbn. apply scrub_Some in S as [-> _].
        reflexivity.
      * rewrite lookup_delete_eq. cbn. apply scrub_None in S. congruence.
    + destruct (scrub c us);
        [rewrite lookup_insert_ne by congruence
        |rewrite lookup_delete_ne by congruence]; reflexivity.
  - rewrite (on_leave_unknown env c r st E). cbn [fst rooms].
    unfold users. destruct (decide (r' = r)) as [->|Hne]; [|reflexivity].
    rewrite E. reflexivity.
Qed.

Lemma rooms_after_disconnect (env : environment) (c r : string) (st : server) :
  rooms (on_disconnect env c st).1 !! r = rooms st !! r ≫= scrub c.
Proof. rewrite on_disconnect_spec. cbn. apply lookup_omap. Qed.

Lemma users_after_disconnect (env : environment) (c r : string) (st : server) :
  users (on_disconnect env c st).1 r = filter (fun u => u ≠ c) (users st r).
Proof.
  unfold users. rewrite rooms_after_disconnect.
  destruct (rooms st !! r) as [us|]; cbn; [apply scrub_users|reflexivity].
Qed.

Lemma users_lookup (st : server) (r : string) (us : list string) :
  rooms st !! r = Some us -> users st r = us.
Proof. unfold users. intros ->. reflexivity. Qed.

Lemma users_after_join (c r r' : string) (st : server) :
  users (on_join_voice_room c r st).1 r'
  = if decide (r' = r)
    then (if decide ((10 <= length (users st r))%nat \/ c ∈ users st r)
          then users st r else users st r ++ [c])
    else users st r'.
Proof.
  destruct (decide (10 <= length (users st r))%nat) as [Hfull|Hroom].
  - rewrite (on_join_full c r st Hfull). cbn [fst].
    destruct (decide (r' = r)) as [->|]; [|reflexivity].
    rewrite decide_True by (left; exact Hfull). reflexivity.
  - destruct (decide (c ∈ users st r)) as [Hin|Hnin].
    + rewrite (on_join_member c r st) by (lia || exact Hin). cbn [fst].
      destruct (decide (r' = r)) as [->|]; [|reflexivity].
      rewrite decide_True by (right; exact Hin). reflexivity.
    + rewrite (on_join_new c r st) by (lia || exact Hnin).
      unfold users at 1. cbn [fst rooms].
      destruct (decide (r' = r)) as [->|Hne].
      * rewrite lookup_insert_eq, decide_False by tauto. reflexivity.
      * rewrite lookup_insert_ne by congruence. reflexivity.
Qed.

(** ** The invariants of the registry and of the transport rooms *)

Lemma consistent_init : consistent init.
Proof.
  repeat split; intros r x; cbn; try (rewrite lookup_empty; discriminate).
  - unfold members. cbn. rewrite lookup_empty. cbn.
    intros H. apply elem_of_empty in H. contradiction.
  - unfold users. cbn. rewrite lookup_empty. cbn.
    intros H. apply not_elem_of_nil in H. contradiction.
Qed.

Lemma consistent_users_NoDup (st : server) (r : string) :
  consistent st -> NoDup (users st r).
Proof.
  intros (_ & _ & Hd & _). unfold users.
  destruct (rooms st !! r) as [us|] eqn:E; cbn; [eapply Hd, E|constructor].
Qed.

Lemma consistent_users_limit (st : server) (r : string) :
  consistent st -> (length (users st r) <= 10)%nat.
Proof.
  intros (_ & Hl & _). unfold users.
  destruct (rooms st !! r) as [us|] eqn:E; cbn; [eapply Hl, E|lia].
Qed.

Lemma consistent_connection (c : string) (st : server) :
  consistent st -> consistent (on_connection c st).1.
Proof.
  intros (He & Hl & Hd & Hs & Hc).
  split; [exact He|]. split; [exact Hl|]. split; [exact Hd|]. split.
  - intros r x. cbn. rewrite members_socket_join.
    change (users _ r) with (users st r).
    destruct (decide (r = c)) as [->|Hne].
    + rewrite elem_of_union, elem_of_singleton. intros [->|Hx].
      * right. split; [reflexivity|]. apply elem_of_union_l.
        apply elem_of_singleton. reflexivity.
      * destruct (Hs c x Hx) as [Hu|[-> Hsock]]; [left; exact Hu|].
        right. split; [reflexivity|]. apply elem_of_union_r, Hsock.
    + intros Hx. destruct (Hs r x Hx) as [Hu|[-> Hsock]]; [left; exact Hu|].
      right. split; [reflexivity|]. apply elem_of_union_r, Hsock.
  - intros r x. cbn. change (users _ r) with (users st r). intros Hx.
    rewrite members_socket_join.
    destruct (decide (r = c)) as [->|Hne]; [apply elem_of_union_r|];
      apply Hc, Hx.
Qed.

Lemma consistent_join (c r : string) (st : server) :
  consistent st -> consistent (on_join_voice_room c r st).1.
Proof.
  intros Hst. pose proof Hst as (He & Hl & Hd & Hs & Hc).
  destruct (decide (10 <= length (users st r))%nat) as [Hfull|Hroom].
  { rewrite (on_join_full c r st Hfull). exact Hst. }
  destruct (decide (c ∈ users st r)) as [Hin|Hnin].
  - rewrite (on_join_member c r st) by (lia || exact Hin). cbn [fst].
    split; [exact He|]. split; [exact Hl|]. split; [exact Hd|]. split.
    + intros r' x. cbn. change (users _ r') with (users st r').
      rewrite members_socket_join.
      destruct (decide (r' = r)) as [->|Hne]; [|apply Hs].
      rewrite elem_of_union, elem_of_singleton.
      intros [->|Hx]; [left; exact Hin|apply Hs, Hx].
    + intros r' x. cbn. change (users _ r') with (users st r'). intros Hx.
      rewrite members_socket_join.
      destruct (decide (r' = r)) as [->|Hne]; [apply elem_of_union_r|];
        apply Hc, Hx.
  - assert (Hres := on_join_new c r st ltac:(lia) Hnin).
    assert (Hreg : forall r' us,
      <[r := users st r ++ [c]]> (rooms st) !! r' = Some us ->
      (r' = r /\ us = users st r ++ [c]) \/ (r' ≠ r /\ rooms st !! r' = Some us)).
    { intros r' us. destruct (decide (r' = r)) as [->|Hne].
      - rewrite lookup_insert_eq. intros Heq. injection Heq as <-.
        left. split; reflexivity.
      - rewrite lookup_insert_ne by congruence. intros Heq.
        right. split; [exact Hne|exact Heq]. }
    split; [|split; [|split; [|split]]].
    + rewrite Hres. intros r' us H. cbn in H.
      apply Hreg in H as [[-> ->]|[_ H]].
      * intros Hnil. apply app_eq_nil in Hnil as [_ Hnil]. discriminate.
      * eapply He, H.
    + rewrite Hres. intros r' us H. cbn in H.
      apply Hreg in H as [[-> ->]|[_ H]].
      * rewrite length_app. cbn. lia.
      * eapply Hl, H.
    + rewrite Hres. intros r' us H. cbn in H.
      apply Hreg in H as [[-> ->]|[_ H]].
      * apply NoDup_app. split; [apply consistent_users_NoDup, Hst|].
        split; [|apply NoDup_singleton].
        intros x Hx Hx'. apply list_elem_of_singleton in Hx'. subst x.
        contradiction.
      * eapply Hd, H.
    + intros r' x. rewrite users_after_join, Hres. cbn [fst adapter].
      rewrite members_socket_join.
      destruct (decide (r' = r)) as [->|Hne]; [|apply Hs].
      rewrite decide_False by tauto.
      rewrite elem_of_union, elem_of_singleton, elem_of_app,
        list_elem_of_singleton.
      intros [->|Hx]; [left; right; reflexivity|].
      destruct (Hs r x Hx) as [Hx'|Hx']; [left; left; exact Hx'|].
      right. exact Hx'.
    + intros r' x. rewrite users_after_join, Hres. cbn [fst adapter].
      rewrite members_socket_join.
      destruct (decide (r' = r)) as [->|Hne]; [|apply Hc].
      rewrite decide_False by tauto.
      rewrite elem_of_union, elem_of_singleton, elem_of_app,
        list_elem_of_singleton.
      intros [Hx| ->]; [right; apply Hc, Hx|left; reflexivity].
Qed.

Lemma scrubbed_room_ok (c : string) (us us' : list string) :
  scrub c us = Some us' -> (length us <= 10)%nat -> NoDup us ->
  us' ≠ [] /\ (length us' <= 10)%nat /\ NoDup us'.
Proof.
  intros [-> Hne]%scrub_Some Hlen Hnd. split; [exact Hne|]. split.
  - pose proof (filter_length_le c us). lia.
  - apply NoDup_filter, Hnd.
Qed.

Lemma consistent_leave (env : environment) (c r : string) (st : server) :
  consistent st -> consistent (on_leave_voice_room env c r st).1.
Proof.
  intros Hst. pose proof Hst as (He & Hl & Hd & Hs & Hc).
  assert (Hreg : forall r' us',
    rooms (on_leave_voice_room env c r st).1 !! r' = Some us' ->
    us' ≠ [] /\ (length us' <= 10)%nat /\ NoDup us').
  { intros r' us'. destruct (rooms st !! r) as [us|] eqn:E.
    - rewrite (on_leave_known env c r st us E). cbn [fst rooms].
      destruct (scrub c us) as [us1|] eqn:S.
      + destruct (decide (r' = r)) as [->|Hne].
        * rewrite lookup_insert_eq. intros Heq. injection Heq as <-.
          apply (scrubbed_room_ok c us us1 S); [eapply Hl, E|eapply Hd, E].
        * rewrite lookup_insert_ne by congruence. intros H.
          split; [eapply He, H|]. split; [eapply Hl, H|eapply Hd, H].
      + destruct (decide (r' = r)) as [->|Hne].
        * rewrite lookup_delete_eq. discriminate.
        * rewrite lookup_delete_ne by congruence. intros H.
          split; [eapply He, H|]. split; [eapply Hl, H|eapply Hd, H].
    - rewrite (on_leave_unknown env c r st E). cbn [fst rooms]. intros H.
      split; [eapply He, H|]. split; [eapply Hl, H|eapply Hd, H]. }
  assert (Ha : adapter (on_leave_voice_room env c r st).1
               = socket_leave c r (adapter st)).
  { unfold on_leave_voice_room. destruct (rooms st !! r) as [us|]; cbn.
    - destruct (length (filter (fun u => u ≠ c) us) =? 0)%nat; reflexivity.
    - reflexivity. }
  assert (Hk : sockets (on_leave_voice_room env c r st).1 = sockets st).
  { unfold on_leave_voice_room. destruct (rooms st !! r) as [us|]; cbn.
    - destruct (length (filter (fun u => u ≠ c) us) =? 0)%nat; reflexivity.
    - reflexivity. }
  split; [|split; [|split; [|split]]].
  - intros r' us' H. apply (Hreg r' us' H).
  - intros r' us' H. apply (Hreg r' us' H).
  - intros r' us' H. apply (Hreg r' us' H).
  - intros r' x. rewrite users_after_leave, Ha, Hk, members_socket_leave.
    destruct (decide (r' = r)) as [->|Hne]; [|apply Hs].
    rewrite elem_of_difference, elem_of_singleton, elem_of_scrubbed.
    intros [Hx Hxc]. destruct (Hs r x Hx) as [Hu|Hu]; [left|right]; tauto.
  - intros r' x. rewrite users_after_leave, Ha, members_socket_leave.
    destruct (decide (r' = r)) as [->|Hne]; [|apply Hc].
    rewrite elem_of_difference, elem_of_singleton, elem_of_scrubbed.
    intros [Hxc Hx]. split; [apply Hc, Hx|exact Hxc].
Qed.

Lemma consistent_disconnect (env : environment) (c : string) (st : server) :
  consistent st -> consistent (on_disconnect env c st).1.
Proof.
  intros Hst. pose proof Hst as (He & Hl & Hd & Hs & Hc).
  assert (Hreg : forall r' us',
    rooms (on_disconnect env c st).1 !! r' = Some us' ->
    us' ≠ [] /\ (length us' <= 10)%nat /\ NoDup us').
  { intros r' us'. rewrite rooms_after_disconnect.
    destruct (rooms st !! r') as [us|] eqn:E; cbn; [|discriminate].
    intros S. apply (scrubbed_room_ok c us us' S); [eapply Hl, E|eapply Hd, E]. }
  assert (Ha : adapter (on_disconnect env c st).1 = leaveAll c (adapter st))
    by reflexivity.
  assert (Hk : sockets (on_disconnect env c st).1 = sockets st ∖ {[c]})
    by reflexivity.
  split; [|split; [|split; [|split]]].
  - intros r' us' H. apply (Hreg r' us' H).
  - intros r' us' H. apply (Hreg r' us' H).
  - intros r' us' H. apply (Hreg r' us' H).
  - intros r' x. rewrite users_after_disconnect, Ha, Hk, members_leaveAll.
    rewrite !elem_of_difference, elem_of_singleton, elem_of_scrubbed.
    intros [Hx Hxc]. destruct (Hs r' x Hx) as [Hu|Hu]; [left|right]; tauto.
  - intros r' x. rewrite users_after_disconnect, Ha, members_leaveAll.
    rewrite elem_of_difference, elem_of_singleton, elem_of_scrubbed.
    intros [Hxc Hx]. split; [apply Hc, Hx|exact Hxc].
Qed.

Create HintDb registry.

#[local] Hint Resolve consistent_connection consistent_join consistent_leave
  consistent_disconnect : registry.

(** What [step] does with a join. *)
Lemma step_join (env : environment) (st : server) (c r : string) :
  step env st (join_voice_room c r)
  = if finds_prototype_value (rooms st) r then (st, [])
    else on_join_voice_room c r st.
Proof.
  cbn [step]. unfold join_voice_room_listener.
  destruct (finds_prototype_value (rooms st) r); reflexivity.
Qed.

Lemma step_join_own (env : environment) (st : server) (c r : string) :
  (rooms st !! r = None -> inherited r = false) ->
  step env st (join_voice_room c r) = on_join_voice_room c r st.
Proof.
  intros H. rewrite step_join. unfold finds_prototype_value.
  destruct (rooms st !! r) as [us|] eqn:E.
  - rewrite bool_decide_eq_false_2 by discriminate. reflexivity.
  - rewrite (H eq_refl), andb_false_r. reflexivity.
Qed.

Lemma consistent_step (env : environment) (st : server) (ev : event) :
  consistent st -> consistent (step env st ev).1.
Proof.
  intros Hst. destruct ev; try rewrite step_join; cbn [step];
    try destruct (finds_prototype_value _ _); auto with registry.
Qed.

Lemma run_snoc (env : environment) (evs : list event) (ev : event)
  (st : server) :
  run env (evs ++ [ev]) st = run_step env (run env evs st) ev.
Proof. unfold run. rewrite foldl_app. reflexivity. Qed.

Lemma consistent_run (env : environment) (evs : list event) (st : server) :
  consistent st -> consistent (run env evs st).1.
Proof.
  intros Hst. induction evs as [|ev evs IH] using rev_ind; [exact Hst|].
  rewrite run_snoc. cbn. apply consistent_step, IH.
Qed.

Lemma consistent_reachable (env : environment) (st : server) :
  reachable env st -> consistent st.
Proof. intros [evs <-]. apply consistent_run, consistent_init. Qed.

(** ** Room identifiers that name a property of [Object.prototype] *)

Lemma own_names_step (env : environment) (st : server) (ev : event) :
  own_names st -> own_names (step env st ev).1.
Proof.
  intros Hst.
  destruct ev as [s|s r|s r|s r X to|s r X to|s X to|s];
    try rewrite step_join; cbn [step]; try exact Hst.
  - unfold finds_prototype_value.
    destruct (rooms st !! r) as [us|] eqn:E.
    + rewrite bool_decide_eq_false_2 by discriminate. cbn [andb].
      intros r'. unfold on_join_voice_room. rewrite E.
      destruct (10 <=? _)%nat; cbn [fst rooms]; [apply Hst|].
      destruct (negb _); [|apply Hst].
      rewrite lookup_insert_is_Some. intros [<-|[_ H]]; apply Hst; eauto.
    + rewrite bool_decide_eq_true_2 by reflexivity. cbn [andb].
      destruct (inherited r) eqn:Hr; [exact Hst|].
      intros r'. unfold on_join_voice_room. rewrite E.
      destruct (10 <=? _)%nat; cbn [fst rooms].
      * rewrite lookup_insert_is_Some.
        intros [<-|[_ H]]; [exact Hr|apply Hst, H].
      * destruct (negb _); rewrite ?lookup_insert_is_Some.
        -- intros [<-|[_ [<-|[_ H]]]]; [exact Hr|exact Hr|apply Hst, H].
        -- intros [<-|[_ H]]; [exact Hr|apply Hst, H].
  - intros r'. destruct (rooms st !! r) as [us|] eqn:E.
    + rewrite (on_leave_known env s r st us E). cbn [fst rooms].
      destruct (scrub s us).
      * rewrite lookup_insert_is_Some. intros [<-|[_ H]]; apply Hst; eauto.
      * rewrite lookup_delete_is_Some. intros [_ H]. apply Hst, H.
    + rewrite (on_leave_unknown env s r st E). apply Hst.
  - intros r'. rewrite rooms_after_disconnect.
    destruct (rooms st !! r') as [us|] eqn:E; cbn;
      [|intros [? H]; discriminate].
    intros _. apply Hst. eauto.
Qed.

Lemma own_names_run (env : environment) (evs : list event) :
  own_names (run env evs init).1.
Proof.
  induction evs as [|ev evs IH] using rev_ind.
  - intros r [us H]. cbn in H. rewrite lookup_empty in H. discriminate.
  - rewrite run_snoc. unfold run_step. cbn [fst]. apply own_names_step, IH.
Qed.

(** A join of a room with such a name throws before it has changed or
    emitted anything, after any sequence of events: the room is never
    created. *)
Lemma join_of_inherited_name (env : environment) (evs : list event)
  (c r : string) :
  inherited r = true ->
  join_voice_room_listener c r (run env evs init).1 = Thrown
  /\ step env (run env evs init).1 (join_voice_room c r)
     = ((run env evs init).1, []).
Proof.
  intros Hr.
  assert (H : finds_prototype_value (rooms (run env evs init).1) r = true).
  { unfold finds_prototype_value. rewrite Hr, andb_true_r.
    apply bool_decide_eq_true_2.
    destruct (rooms (run env evs init).1 !! r) as [us|] eqn:E; [|reflexivity].
    rewrite (own_names_run env evs r) in Hr by eauto. discriminate. }
  split.
  - unfold join_voice_room_listener. rewrite H. reflexivity.
  - rewrite step_join, H. reflexivity.
Qed.

Example join_of_constructor_room :
  join_voice_room_listener "c1" "constructor"
    (run quiet [connection "c1"] init).1 = Thrown
  /\ Api.join_voice_room_listener "c1" "constructor"
       (Api.run [connection "c1"] init).1 = Thrown
  /\ keys (rooms (run quiet [connection "c1";
                            join_voice_room "c1" "constructor"] init).1) = []
  /\ (run quiet [connection "c1"; join_voice_room "c1" "constructor"]
        init).2 = [].
Proof. vm_compute. repeat split; reflexivity. Qed.

(** ** The registry holds no empty room *)

(** C4.  After any sequence of events, a room identifier is in the
    registry exactly when the room has users: a leave or a disconnect that
    takes the last user out deletes the room in the same handler, and a
    join that creates a room puts the socket in it. *)
Theorem room_present_iff_nonempty (env : environment) (evs : list event)
  (r : string) :
  is_Some (rooms (run env evs init).1 !! r)
  <-> users (run env evs init).1 r ≠ [].
Proof.
  pose proof (consistent_run env evs init consistent_init) as (He & _).
  unfold users. split.
  - intros [us Hus]. rewrite Hus. cbn. eapply He, Hus.
  - destruct (rooms (run env evs init).1 !! r) as [us|]; cbn; [eauto|].
    intros H. contradiction H. reflexivity.
Qed.

(** ** The limit of ten users *)

(** X1 (C1 on the current server).  No room ever has more than ten
    users, and a join to a room that has ten changes nothing and answers
    [room-full] to the requester alone. *)
Theorem join_respects_limit (env : environment) (evs : list event)
  (socket r : string) :
  (length (users (run env evs init).1 r) <= 10)%nat
  /\ ((10 <= length (users (run env evs init).1 r))%nat ->
      on_join_voice_room socket r (run env evs init).1
      = ((run env evs init).1,
         [Emit (to_socket socket) {[socket]} (room_full r 10)])).
Proof.
  split.
  - apply consistent_users_limit, consistent_run, consistent_init.
  - apply on_join_full.
Qed.

Example eleventh_join_is_refused :
  users (run quiet eleven_joins init).1 "r"
  = ["c0"; "c1"; "c2"; "c3"; "c4"; "c5"; "c6"; "c7"; "c8"; "c9"]
  /\ sent (List.filter is_room_full (run quiet eleven_joins init).2)
     = [(to_socket "c10", ["c10"], room_full "r" 10)].
Proof. vm_compute. split; reflexivity. Qed.

Lemma api_join_appends (c r : string) (st : server) :
  users (Api.on_join_voice_room c r st).1 r = users st r ++ [c]
  /\ (Api.on_join_voice_room c r st).2
     = [socket_to (socket_join c r (adapter st)) c r (user_joined c)].
Proof.
  unfold Api.on_join_voice_room, users. cbn [fst snd rooms].
  rewrite lookup_insert_eq. split; [|reflexivity].
  destruct (rooms st !! r) as [us|] eqn:E; cbn.
  - rewrite E. reflexivity.
  - rewrite lookup_insert_eq. reflexivity.
Qed.

(** C1, on [src/api/index.ts].  The join handler of the older entry point
    has no limit: every join adds the socket at the end of the room's
    users, whatever their number, and emits [user-joined] and nothing
    else; after eleven sockets join the room ["r"], the room has eleven
    users and no [room-full] was sent. *)
Theorem api_eleventh_join_is_accepted :
  users (Api.run eleven_joins init).1 "r" = eleven
  /\ length (users (Api.run eleven_joins init).1 "r") = 11
  /\ List.filter is_room_full (Api.run eleven_joins init).2 = []
  /\ (forall c r st,
        length (users (Api.on_join_voice_room c r st).1 r)
        = S (length (users st r))
        /\ List.filter is_room_full (Api.on_join_voice_room c r st).2 = []).
Proof.
  split; [vm_compute; reflexivity|]. split; [vm_compute; reflexivity|].
  split; [vm_compute; reflexivity|].
  intros c r st. destruct (api_join_appends c r st) as [-> ->].
  rewrite length_app. cbn. split; [lia|reflexivity].
Qed.

(** ** Joining twice *)

Lemma on_join_again (socket r : string) (st : server) :
  consistent st -> socket ∈ users st r -> (length (users st r) < 10)%nat ->
  on_join_voice_room socket r st = (st, []).
Proof.
  intros (_ & _ & _ & _ & Hc) Hin Hlen.
  rewrite (on_join_member socket r st Hlen Hin). f_equal.
  rewrite <- (server_eta st) at 4. f_equal.
  unfold socket_join. apply insert_id.
  pose proof (Hc r socket Hin) as Hm. unfold members in *.
  destruct (adapter st !! r) as [s|]; cbn in *.
  - f_equal. symmetry. apply subseteq_union_1_L, singleton_subseteq_l, Hm.
  - apply elem_of_empty in Hm. contradiction.
Qed.

(** X2 (C3 on the current server).  A second join of the same room by
    the same socket leaves the registry as the first join left it and
    sends no [user-joined]; the two joins add at most one user; and a join
    by a socket that is already in a room that is not full changes nothing
    at all. *)
Theorem join_twice_is_idempotent (env : environment) (evs : list event)
  (socket r : string) :
  rooms (on_join_voice_room socket r
           (on_join_voice_room socket r (run env evs init).1).1).1
  = rooms (on_join_voice_room socket r (run env evs init).1).1
  /\ List.filter (is_joined_notice socket)
       (on_join_voice_room socket r
          (on_join_voice_room socket r (run env evs init).1).1).2 = []
  /\ (length (users (on_join_voice_room socket r
                      (on_join_voice_room socket r (run env evs init).1).1).1 r)
      <= length (users (run env evs init).1 r) + 1)%nat
  /\ (socket ∈ users (run env evs init).1 r ->
      (length (users (run env evs init).1 r) < 10)%nat ->
      on_join_voice_room socket r (run env evs init).1
      = ((run env evs init).1, [])).
Proof.
  pose proof (consistent_run env evs init consistent_init) as Hst.
  set (st := (run env evs init).1) in *.
  pose proof (consistent_join socket r st Hst) as Hst1.
  set (st1 := (on_join_voice_room socket r st).1) in *.
  assert (Hu1 : users st1 r
    = if decide ((10 <= length (users st r))%nat \/ socket ∈ users st r)
      then users st r else users st r ++ [socket]).
  { unfold st1. rewrite users_after_join, decide_True by reflexivity.
    reflexivity. }
  assert (Hsecond : (10 <= length (users st1 r))%nat \/ socket ∈ users st1 r).
  { rewrite Hu1. destruct (decide _) as [H|H]; [exact H|].
    right. apply elem_of_app. right. apply list_elem_of_singleton.
    reflexivity. }
  assert (H2 : on_join_voice_room socket r st1
    = (st1, if decide (10 <= length (users st1 r))%nat
            then [socket_emit socket (room_full r 10)] else [])).
  { destruct (decide (10 <= length (users st1 r))%nat) as [Hfull|Hroom].
    - apply on_join_full, Hfull.
    - apply on_join_again; [exact Hst1| |lia].
      destruct Hsecond as [Hfull|Hin]; [contradiction|exact Hin]. }
  rewrite H2. cbn [fst snd]. split; [reflexivity|]. split; [|split].
  - destruct (decide (10 <= length (users st1 r))%nat); reflexivity.
  - rewrite Hu1.
    destruct (decide ((10 <= length (users st r))%nat \/ socket ∈ users st r));
      [lia|].
    rewrite length_app. cbn. lia.
  - intros Hin Hlen. apply on_join_again; assumption.
Qed.

Example second_join_is_silent :
  users (run quiet double_join init).1 "r" = ["c1"]
  /\ length (List.filter (is_joined_notice "c1") (run quiet double_join init).2)
     = 1.
Proof. vm_compute. split; reflexivity. Qed.

(** C3, on [src/api/index.ts].  The join handler of the older entry point
    does not look for the socket in the room: a second join adds the
    socket a second time and sends [user-joined] again, for a socket that
    is in the room as for any other. *)
Theorem api_second_join_duplicates :
  users (Api.run double_join init).1 "r" = ["c1"; "c1"]
  /\ length (List.filter (is_joined_notice "c1") (Api.run double_join init).2)
     = 2
  /\ (forall c r st,
        users (Api.on_join_voice_room c r
                 (Api.on_join_voice_room c r st).1).1 r
        = users st r ++ [c; c]
        /\ List.filter (is_joined_notice c)
             (Api.on_join_voice_room c r
                (Api.on_join_voice_room c r st).1).2
           = [socket_to
                (socket_join c r
                   (adapter (Api.on_join_voice_room c r st).1))
                c r (user_joined c)]).
Proof.
  split; [vm_compute; reflexivity|]. split; [vm_compute; reflexivity|].
  intros c r st.
  destruct (api_join_appends c r (Api.on_join_voice_room c r st).1)
    as [-> ->].
  destruct (api_join_appends c r st) as [-> _].
  rewrite <- app_assoc. split; [reflexivity|].
  cbn. rewrite bool_decide_eq_true_2 by reflexivity. reflexivity.
Qed.

(** ** Counting the effects of the disconnect loop *)

Lemma emissions_app (l1 l2 : list effect) :
  emissions (l1 ++ l2) = emissions l1 ++ emissions l2.
Proof. unfold emissions. apply List.filter_app. Qed.

Lemma emissions_cons_emit (a : gmap string (gset string)) (r : string)
  (m : message) (l : list effect) :
  emissions (io_to a r m :: l) = io_to a r m :: emissions l.
Proof. reflexivity. Qed.

Lemma emissions_fetches (urls : list string) :
  emissions (Fetch_POST <$> urls) = [].
Proof. induction urls as [|u urls IH]; [reflexivity|exact IH]. Qed.

Lemma broadcasts_emissions (r : string) (m : message) (effs : list effect) :
  broadcasts r m (emissions effs) = broadcasts r m effs.
Proof.
  unfold broadcasts, emissions. f_equal.
  induction effs as [|e effs IH]; [reflexivity|].
  destruct e as [t rs m'| |]; cbn; rewrite IH; reflexivity.
Qed.

Lemma emissions_sweep (f : string -> list string) (c : string)
  (a : gmap string (gset string)) (rs : gmap string (list string))
  (ks : list string) :
  (forall k, k ∈ ks -> is_Some (rs !! k)) ->
  emissions (ks ≫= room_effects (fun r => Fetch_POST <$> f r) c a rs)
  = (fun k => io_to a k (user_left c)) <$> ks.
Proof.
  induction ks as [|k ks IH]; intros Hks; [reflexivity|].
  cbn. rewrite emissions_app, IH
    by (intros k' Hk'; apply Hks, list_elem_of_further, Hk').
  destruct (Hks k (list_elem_of_here k ks)) as [us Hus].
  unfold room_effects at 1. rewrite Hus.
  rewrite emissions_cons_emit.
  destruct (length (filter (fun u => u ≠ c) us) =? 0)%nat.
  - rewrite emissions_fetches. reflexivity.
  - reflexivity.
Qed.

Lemma broadcasts_sweep (a : gmap string (gset string)) (c r : string)
  (ks : list string) :
  NoDup ks ->
  broadcasts r (user_left c) ((fun k => io_to a k (user_left c)) <$> ks)
  = if decide (r ∈ ks) then 1 else 0.
Proof.
  unfold broadcasts.
  induction 1 as [|k ks Hk Hks IH].
  - rewrite decide_False by apply not_elem_of_nil. reflexivity.
  - cbn. destruct (decide (k = r)) as [->|Hne].
    + rewrite bool_decide_eq_true_2 by reflexivity.
      rewrite bool_decide_eq_true_2 by reflexivity. cbn.
      rewrite IH, decide_False by exact Hk.
      rewrite decide_True by apply list_elem_of_here. reflexivity.
    + rewrite bool_decide_eq_false_2 by congruence. cbn. rewrite IH.
      destruct (decide (r ∈ ks)) as [Hin|Hnin].
      * rewrite decide_True by (apply list_elem_of_further, Hin). reflexivity.
      * rewrite decide_False; [reflexivity|].
        intros [->|Hin]%elem_of_cons; [congruence|contradiction].
Qed.

Lemma posts_kept_rooms (f : string -> list string) (c : string)
  (a : gmap string (gset string)) (rs : gmap string (list string))
  (ks : list string) :
  (forall k us, rs !! k = Some us -> scrub c us ≠ None) ->
  posts (ks ≫= room_effects (fun r => Fetch_POST <$> f r) c a rs) = [].
Proof.
  intros Hkept. induction ks as [|k ks IH]; [reflexivity|].
  cbn. rewrite posts_app, IH, app_nil_r.
  unfold room_effects. destruct (rs !! k) as [us|] eqn:Hus; [|reflexivity].
  specialize (Hkept k us Hus). unfold scrub in Hkept.
  destruct (length (filter (fun u => u ≠ c) us) =? 0)%nat;
    [contradiction|reflexivity].
Qed.

(** ** Disconnect *)

Lemma absent_everywhere_keeps_registry (c : string)
  (rs : gmap string (list string)) :
  no_empty_room rs -> (forall r us, rs !! r = Some us -> c ∉ us) ->
  omap (scrub c) rs = rs.
Proof.
  intros He Hc. apply map_eq. intros r. rewrite lookup_omap.
  destruct (rs !! r) as [us|] eqn:E; cbn; [|reflexivity].
  apply scrub_absent; [eapply Hc, E|eapply He, E].
Qed.

(** What the loop of the disconnect handler does, in every state a run
    can reach.  The socket is taken out of every room: each room keeps
    its other users, in order, and a room the socket was not in keeps its
    entry.  The loop has no test of whether the socket was in the room:
    [io.to(roomId).emit("user-left", socket.id)] is called once for every
    key of the registry.  For a socket that was in no room the registry
    is unchanged and no request is issued. *)
Theorem disconnect_sweeps_every_room (env : environment) (evs : list event)
  (c : string) :
  (forall r, users (on_disconnect env c (run env evs init).1).1 r
             = filter (fun u => u ≠ c) (users (run env evs init).1 r))
  /\ (forall r, c ∉ users (on_disconnect env c (run env evs init).1).1 r)
  /\ (forall r, c ∉ users (run env evs init).1 r ->
        rooms (on_disconnect env c (run env evs init).1).1 !! r
        = rooms (run env evs init).1 !! r)
  /\ emissions (on_disconnect env c (run env evs init).1).2
     = (fun r => io_to (leaveAll c (adapter (run env evs init).1)) r
                   (user_left c))
       <$> keys (rooms (run env evs init).1)
  /\ (forall r, broadcasts r (user_left c)
                  (on_disconnect env c (run env evs init).1).2
                = if decide (is_Some (rooms (run env evs init).1 !! r))
                  then 1 else 0)
  /\ ((forall r, c ∉ users (run env evs init).1 r) ->
      rooms (on_disconnect env c (run env evs init).1).1
      = rooms (run env evs init).1
      /\ posts (on_disconnect env c (run env evs init).1).2 = []).
Proof.
  pose proof (consistent_run env evs init consistent_init) as Hst.
  set (st := (run env evs init).1) in *.
  pose proof Hst as (He & _).
  assert (Hem : emissions (on_disconnect env c st).2
    = (fun r => io_to (leaveAll c (adapter st)) r (user_left c))
      <$> keys (rooms st)).
  { rewrite on_disconnect_spec. cbn [snd]. apply emissions_sweep.
    intros k Hk. apply keys_spec, Hk. }
  split; [|split; [|split; [|split; [|split]]]].
  - intros r. apply users_after_disconnect.
  - intros r. rewrite users_after_disconnect, elem_of_scrubbed. tauto.
  - intros r Hr. rewrite rooms_after_disconnect.
    destruct (rooms st !! r) as [us|] eqn:E; cbn; [|reflexivity].
    apply scrub_absent; [|eapply He, E].
    rewrite <- (users_lookup st r us E). exact Hr.
  - exact Hem.
  - intros r. rewrite <- broadcasts_emissions, Hem.
    rewrite broadcasts_sweep by apply keys_NoDup.
    destruct (decide (r ∈ keys (rooms st))) as [Hin|Hnin].
    + rewrite decide_True by (apply keys_spec, Hin). reflexivity.
    + rewrite decide_False; [reflexivity|].
      intros H. apply Hnin, keys_spec, H.
  - intros Hout.
    assert (Habs : forall r us, rooms st !! r = Some us -> c ∉ us).
    { intros r us E. rewrite <- (users_lookup st r us E). apply Hout. }
    rewrite on_disconnect_spec. cbn [fst snd rooms]. split.
    + apply absent_everywhere_keeps_registry; assumption.
    + apply posts_kept_rooms. intros k us E.
      rewrite scrub_absent; [discriminate|eapply Habs, E|eapply He, E].
Qed.

(** C2.  The disconnect handler notifies a room the socket was never
    in, where the handler is described as notifying each affected room
    and a room the socket was not a member of is to receive no
    [user-left].  ["c2"] has joined nothing and the only room, ["a"],
    holds ["c1"] alone; when ["c2"] disconnects, a [user-left] with its
    id is broadcast to ["a"] and reaches ["c1"]. *)
Lemma disconnect_notifies_rooms_never_joined :
  keys (rooms (run quiet bystander init).1) = ["a"]
  /\ users (run quiet bystander init).1 "a" = ["c1"]
  /\ sent (on_disconnect quiet "c2" (run quiet bystander init).1).2
     = [(to_room "a", ["c1"], user_left "c2")]
  /\ broadcasts "a" (user_left "c2")
       (on_disconnect quiet "c2" (run quiet bystander init).1).2 = 1.
Proof. vm_compute. repeat split; reflexivity. Qed.

Lemma sweep_without_hook (c : string) (a : gmap string (gset string))
  (rs : gmap string (list string)) (ks : list string) :
  (forall k, k ∈ ks -> is_Some (rs !! k)) ->
  ks ≫= room_effects (fun _ => []) c a rs
  = (fun k => io_to a k (user_left c)) <$> ks.
Proof.
  induction ks as [|k ks IH]; intros Hks; [reflexivity|].
  cbn. rewrite IH by (intros k' Hk'; apply Hks, list_elem_of_further, Hk').
  destruct (Hks k (list_elem_of_here k ks)) as [us Hus].
  unfold room_effects at 1. rewrite Hus.
  destruct (length (filter (fun u => u ≠ c) us) =? 0)%nat; reflexivity.
Qed.

(** The loop of the older entry point does the same to the registry and
    emits the same events. *)
Lemma api_disconnect_agrees (env : environment) (c : string) (st : server) :
  (Api.on_disconnect c st).1 = (on_disconnect env c st).1
  /\ (Api.on_disconnect c st).2 = emissions (on_disconnect env c st).2.
Proof.
  rewrite api_on_disconnect_spec, on_disconnect_spec. cbn [fst snd].
  split; [reflexivity|].
  rewrite emissions_sweep by (intros k Hk; apply keys_spec, Hk).
  apply sweep_without_hook. intros k Hk. apply keys_spec, Hk.
Qed.

(** ** Leave *)

Ltac by_evaluation :=
  match goal with
  | |- ?P => apply (bool_decide_unpack P); vm_compute; exact I
  end.

Lemma filter_last_user (c : string) : filter (fun u => u ≠ c) [c] = [].
Proof. rewrite filter_cons_False by (intros H; apply H; reflexivity). reflexivity. Qed.

Lemma scrub_last_user (c : string) : scrub c [c] = None.
Proof. apply scrub_None, filter_last_user. Qed.


Lemma leave_posts (env : environment) (c r : string) (st : server) :
  posts (on_leave_voice_room env c r st).2
  = match rooms st !! r ≫= scrub c, rooms st !! r with
    | None, Some _ => finalize_requests env r
    | _, _ => []
    end.
Proof.
  destruct (rooms st !! r) as [us|] eqn:E; cbn.
  - rewrite (on_leave_known env c r st us E). cbn [snd].
    destruct (scrub c us); cbn; [reflexivity|].
    change (posts (Fetch_POST <$> finalize_requests env r)
            = finalize_requests env r).
    apply posts_fetches.
  - rewrite (on_leave_unknown env c r st E). reflexivity.
Qed.

(** What the leave handler does for a socket that is not a user of the
    room, in every state a run can reach.  It changes neither the
    registry nor the set of connected sockets, issues no request, ends
    without an error and sends nothing to the socket itself.  For a room
    that is not in the registry it has no effect at all.  For a room that
    is, the handler has no test of whether the socket is one of its
    users: [io.to(roomId).emit("user-left", socket.id)] is called. *)
Theorem leave_of_non_member (env : environment) (evs : list event)
  (c r : string) :
  c ∉ users (run env evs init).1 r ->
  rooms (on_leave_voice_room env c r (run env evs init).1).1
  = rooms (run env evs init).1
  /\ sockets (on_leave_voice_room env c r (run env evs init).1).1
     = sockets (run env evs init).1
  /\ posts (on_leave_voice_room env c r (run env evs init).1).2 = []
  /\ (UnhandledRejection
      ∉ (on_leave_voice_room env c r (run env evs init).1).2)
  /\ (forall m,
        ~ receives c m (on_leave_voice_room env c r (run env evs init).1).2)
  /\ (rooms (run env evs init).1 !! r = None ->
      (on_leave_voice_room env c r (run env evs init).1).2 = [])
  /\ (is_Some (rooms (run env evs init).1 !! r) ->
      (on_leave_voice_room env c r (run env evs init).1).2
      = [Emit (to_room r)
           (members (adapter (run env evs init).1) r ∖ {[c]})
           (user_left c)]).
Proof.
  pose proof (consistent_run env evs init consistent_init) as Hst.
  set (st := (run env evs init).1) in *.
  pose proof Hst as (He & _). intros Hout.
  destruct (rooms st !! r) as [us|] eqn:E.
  - assert (Hus : c ∉ us) by (rewrite <- (users_lookup st r us E); exact Hout).
    rewrite (on_leave_known env c r st us E).
    rewrite (scrub_absent c us Hus (He r us E)). cbn [fst snd rooms sockets].
    unfold io_to. rewrite members_socket_leave, decide_True by reflexivity.
    split; [apply insert_id, E|]. split; [reflexivity|].
    split; [reflexivity|]. split; [|split; [|split]].
    + intros H. apply list_elem_of_singleton in H. discriminate.
    + intros m (t & rs & Hin & Hc).
      apply list_elem_of_singleton in Hin. injection Hin as _ -> _.
      apply elem_of_difference in Hc as [_ Hc]. apply Hc.
      apply elem_of_singleton. reflexivity.
    + discriminate.
    + reflexivity.
  - rewrite (on_leave_unknown env c r st E). cbn [fst snd rooms sockets].
    split; [reflexivity|]. split; [reflexivity|]. split; [reflexivity|].
    split; [apply not_elem_of_nil|]. split; [|split].
    + intros m (t & rs & Hin & _). apply not_elem_of_nil in Hin. exact Hin.
    + reflexivity.
    + intros [us Hus]. discriminate.
Qed.

Lemma leave_of_non_member_witness :
  ("c2" ∉ users (run quiet bystander init).1 "a")
  /\ rooms (on_leave_voice_room quiet "c2" "a" (run quiet bystander init).1).1
     = rooms (run quiet bystander init).1
  /\ (on_leave_voice_room quiet "c2" "a" (run quiet bystander init).1).2
     = [Emit (to_room "a")
          (members (adapter (run quiet bystander init).1) "a" ∖ {["c2"]})
          (user_left "c2")].
Proof.
  assert (H : "c2" ∉ users (run quiet bystander init).1 "a") by by_evaluation.
  split; [exact H|].
  destruct (leave_of_non_member quiet bystander "c2" "a" H)
    as (Hr & _ & _ & _ & _ & _ & He).
  split; [exact Hr|]. apply He. by_evaluation.
Defined.

(** C6.  A leave by a socket that is not a user of the room is not
    without effect on the others, where the handler is described as
    telling the remaining users that someone has left and a leave by a
    non-member is to emit nothing.  ["c2"] is not in the room ["a"] and
    never was; its leave of ["a"] broadcasts [user-left] with its id to
    the room, and ["c1"] gets it. *)
Lemma leave_by_outsider_is_broadcast :
  users (run quiet bystander init).1 "a" = ["c1"]
  /\ sent (on_leave_voice_room quiet "c2" "a" (run quiet bystander init).1).2
     = [(to_room "a", ["c1"], user_left "c2")].
Proof. vm_compute. split; reflexivity. Qed.

(** ** The last user leaves *)









(** ** Relay *)

Lemma adapter_after_leave (env : environment) (c r : string) (st : server) :
  adapter (on_leave_voice_room env c r st).1 = socket_leave c r (adapter st)
  /\ sockets (on_leave_voice_room env c r st).1 = sockets st.
Proof.
  unfold on_leave_voice_room. destruct (rooms st !! r) as [us|]; cbn.
  - destruct (length (filter (fun u => u ≠ c) us) =? 0)%nat; split; reflexivity.
  - split; reflexivity.
Qed.

Lemma adapter_after_join (c r : string) (st : server) :
  (adapter (on_join_voice_room c r st).1 = adapter st
   \/ adapter (on_join_voice_room c r st).1 = socket_join c r (adapter st))
  /\ sockets (on_join_voice_room c r st).1 = sockets st.
Proof.
  unfold on_join_voice_room.
  destruct (10 <=? length _)%nat; cbn; split; auto.
Qed.

(** A connected socket stays in the transport room of its own id as
    long as it does not leave that room itself. *)
Lemma own_room_step (env : environment) (st : server) (ev : event)
  (c : string) :
  ev ≠ leave_voice_room c c ->
  (c ∈ sockets st -> c ∈ members (adapter st) c) ->
  c ∈ sockets (step env st ev).1 -> c ∈ members (adapter (step env st ev).1) c.
Proof.
  intros Hev Hst.
  destruct ev as [s|s r|s r|s r X to|s r X to|s X to|s];
    try rewrite step_join; cbn [step]; try exact Hst.
  - cbn [on_connection fst sockets adapter]. intros H.
    rewrite members_socket_join.
    destruct (decide (c = s)) as [->|Hne].
    + apply elem_of_union_l, elem_of_singleton. reflexivity.
    + apply elem_of_union in H as [H|H];
        [apply elem_of_singleton in H; contradiction|].
      apply Hst, H.
  - destruct (finds_prototype_value _ _); [exact Hst|].
    destruct (adapter_after_join s r st) as [[-> | ->] ->]; [exact Hst|].
    intros H. rewrite members_socket_join.
    destruct (decide (c = r)) as [<-|_]; [apply elem_of_union_r|];
      apply Hst, H.
  - destruct (adapter_after_leave env s r st) as [-> ->].
    intros H. rewrite members_socket_leave.
    destruct (decide (c = r)) as [<-|_]; [|apply Hst, H].
    apply elem_of_difference. split; [apply Hst, H|].
    rewrite elem_of_singleton. intros <-. apply Hev. reflexivity.
  - cbn [on_disconnect fst sockets adapter].
    rewrite members_leaveAll, !elem_of_difference.
    intros [H Hne]. split; [apply Hst, H|exact Hne].
Qed.

Lemma own_room_run (env : environment) (evs : list event) (c : string) :
  leave_voice_room c c ∉ evs ->
  c ∈ sockets (run env evs init).1 ->
  c ∈ members (adapter (run env evs init).1) c.
Proof.
  induction evs as [|ev evs IH] using rev_ind; intros Hevs.
  - cbn. intros H. apply elem_of_empty in H. contradiction.
  - rewrite run_snoc. unfold run_step. cbn [fst].
    apply own_room_step.
    + intros ->. apply Hevs, elem_of_app. right. apply list_elem_of_here.
    + apply IH. intros H. apply Hevs, elem_of_app. left. exact H.
Qed.

(** The event a relay handler emits reaches every socket of the transport
    room named by [to]. *)
Lemma relay_delivery (env : environment) (st : server) (ev : event)
  (to : string) (m : message) :
  relay_of ev = Some (to, m) ->
  step env st ev = (st, [Emit (to_room to) (members (adapter st) to) m])
  /\ (to ∈ members (adapter st) to -> receives to m (step env st ev).2).
Proof.
  intros Hev.
  assert (H : step env st ev
              = (st, [Emit (to_room to) (members (adapter st) to) m])).
  { destruct ev; cbn in *; try discriminate;
      injection Hev as <- <-; reflexivity. }
  split; [exact H|]. intros Hlive. rewrite H.
  eexists _, _. split; [apply list_elem_of_here|exact Hlive].
Qed.

(** C7.  Each relay handler emits exactly one event, of the same name as
    the one it received, to the transport room named by [to]; the payload
    is the one received, with the sender's id as [from], and with the
    [roomId] for an offer and an answer and without it for a candidate.
    The server state is unchanged.  The event is delivered to [c2] when
    [c2] is connected and has never sent [leave-voice-room] with its own
    id as the room: such a socket is still in the transport room of its
    id, the room [io.to(to)] addresses. *)
Theorem relay_preserves_payload (env : environment) (evs : list event)
  (c1 c2 r : string) (X : blob) :
  c2 ∈ sockets (run env evs init).1 ->
  leave_voice_room c2 c2 ∉ evs ->
  (step env (run env evs init).1 (on_voice_offer c1 r X c2)
   = ((run env evs init).1,
      [Emit (to_room c2) (members (adapter (run env evs init).1) c2)
         (voice_offer c1 X r)])
   /\ receives c2 (voice_offer c1 X r)
        (step env (run env evs init).1 (on_voice_offer c1 r X c2)).2)
  /\ (step env (run env evs init).1 (on_voice_answer c1 r X c2)
      = ((run env evs init).1,
         [Emit (to_room c2) (members (adapter (run env evs init).1) c2)
            (voice_answer c1 X r)])
      /\ receives c2 (voice_answer c1 X r)
           (step env (run env evs init).1 (on_voice_answer c1 r X c2)).2)
  /\ (step env (run env evs init).1 (on_ice_candidate c1 X c2)
      = ((run env evs init).1,
         [Emit (to_room c2) (members (adapter (run env evs init).1) c2)
            (ice_candidate c1 X)])
      /\ receives c2 (ice_candidate c1 X)
           (step env (run env evs init).1 (on_ice_candidate c1 X c2)).2).
Proof.
  intros Hsock Hevs.
  pose proof (own_room_run env evs c2 Hevs Hsock) as Hlive.
  repeat split;
    eexists _, _; (split; [apply list_elem_of_here|exact Hlive]).
Qed.

Lemma relay_preserves_payload_witness :
  ("c2" ∈ sockets (run quiet [connection "c1"; connection "c2"] init).1)
  /\ (leave_voice_room "c2" "c2" ∉ [connection "c1"; connection "c2"])
  /\ receives "c2" (voice_offer "c1" "v=0" "r1")
       (step quiet (run quiet [connection "c1"; connection "c2"] init).1
          (on_voice_offer "c1" "r1" "v=0" "c2")).2.
Proof.
  assert (H : "c2" ∈ sockets
                (run quiet [connection "c1"; connection "c2"] init).1)
    by by_evaluation.
  assert (N : leave_voice_room "c2" "c2" ∉ [connection "c1"; connection "c2"])
    by by_evaluation.
  split; [exact H|]. split; [exact N|].
  apply (relay_preserves_payload quiet _ "c1" "c2" "r1" "v=0" H N).
Defined.

(** C7, as the claim has it, fails.  ["c2"] is connected, and has sent
    [leave-voice-room] with its own id: [socket.leave] has taken it out
    of the transport room of that id.  The offer ["c1"] then sends to
    ["c2"] is emitted as the claim says, and nobody receives it. *)
Lemma relay_after_leave_of_own_id_is_lost :
  bool_decide ("c2" ∈ sockets (run quiet own_room_left init).1) = true
  /\ sent (step quiet (run quiet own_room_left init).1
             (on_voice_offer "c1" "r1" "v=0" "c2")).2
     = [(to_room "c2", [], voice_offer "c1" "v=0" "r1")].
Proof. vm_compute. split; reflexivity. Qed.

Lemma step_relay (env : environment) (st : server) (ev : event)
  (to : string) (m : message) :
  relay_of ev = Some (to, m) ->
  step env st ev = (st, [Emit (to_room to) (members (adapter st) to) m]).
Proof.
  destruct ev; cbn; intros H; try discriminate;
    injection H as <- <-; reflexivity.
Qed.

Lemma nobody_in_unknown_room (st : server) (x : string) :
  consistent st -> x ∉ sockets st -> rooms st !! x = None ->
  members (adapter st) x = ∅.
Proof.
  intros (_ & _ & _ & Hs & _) Hsock Hroom.
  apply leibniz_equiv, elem_of_equiv_empty. intros c Hc.
  destruct (Hs x c Hc) as [Hu|[-> Hk]].
  - unfold users in Hu. rewrite Hroom in Hu. cbn in Hu.
    apply not_elem_of_nil in Hu. exact Hu.
  - contradiction.
Qed.

(** C8, as the code has it.  A relay handler passes [to] to [io.to],
    which addresses a transport room: it emits its one event whatever the
    registry says about [roomId], the sender or [to], and leaves the
    server state as it was.  When [to] is neither the id of a connected
    socket nor a room of the registry, the transport room is empty and
    nobody receives anything. *)
Theorem relay_to_nobody (env : environment) (evs : list event) (ev : event)
  (to : string) (m : message) :
  relay_of ev = Some (to, m) ->
  step env (run env evs init).1 ev
  = ((run env evs init).1,
     [Emit (to_room to) (members (adapter (run env evs init).1) to) m])
  /\ (to ∉ sockets (run env evs init).1 ->
      rooms (run env evs init).1 !! to = None ->
      members (adapter (run env evs init).1) to = ∅
      /\ forall c m', ~ receives c m' (step env (run env evs init).1 ev).2).
Proof.
  intros Hev.
  pose proof (consistent_run env evs init consistent_init) as Hst.
  rewrite (step_relay env _ ev to m Hev). split; [reflexivity|].
  intros Hsock Hroom.
  pose proof (nobody_in_unknown_room _ to Hst Hsock Hroom) as Hnone.
  split; [exact Hnone|].
  intros c m' (t & rs & Hin & Hc). cbn in Hin.
  apply list_elem_of_singleton in Hin. injection Hin as _ -> _.
  rewrite Hnone in Hc. apply elem_of_empty in Hc. exact Hc.
Qed.

Lemma relay_to_nobody_witness :
  step quiet (run quiet bystander init).1
    (on_ice_candidate "c2" "candidate:1" "gone")
  = ((run quiet bystander init).1,
     [Emit (to_room "gone")
        (members (adapter (run quiet bystander init).1) "gone")
        (ice_candidate "c2" "candidate:1")])
  /\ members (adapter (run quiet bystander init).1) "gone" = ∅.
Proof.
  destruct (relay_to_nobody quiet bystander
              (on_ice_candidate "c2" "candidate:1" "gone") "gone"
              (ice_candidate "c2" "candidate:1") eq_refl) as [Hstep Hnone].
  split; [exact Hstep|].
  apply Hnone; [by_evaluation|vm_compute; reflexivity].
Defined.

(** C8, as the claim has it, fails.  ["a"] is not the id of a connected
    socket, but it is a room that ["c1"] has joined: an offer from
    ["c2"] with [to] set to ["a"] is delivered to ["c1"]. *)
Lemma relay_to_room_name_is_delivered :
  bool_decide ("a" ∈ sockets (run quiet bystander init).1) = false
  /\ sent (step quiet (run quiet bystander init).1
             (on_voice_offer "c2" "a" "v=0" "a")).2
     = [(to_room "a", ["c1"], voice_offer "c2" "v=0" "a")].
Proof. vm_compute. split; reflexivity. Qed.

(** ** Failures of the finalize hook *)

Lemma step_effects_shape (env : environment) (st : server) (ev : event)
  (e : effect) :
  e ∈ (step env st ev).2 ->
  (exists t rs m, e = Emit t rs m)
  \/ (exists r, e ∈ Fetch_POST <$> finalize_requests env r).
Proof.
  destruct ev as [c|c r|c r|c r X to|c r X to|c X to|c];
    try rewrite step_join; cbn [step].
  - intros H. apply not_elem_of_nil in H. contradiction.
  - destruct (finds_prototype_value _ _);
      [intros H; apply not_elem_of_nil in H; contradiction|].
    unfold on_join_voice_room.
    destruct (10 <=? length _)%nat; cbn [snd].
    + intros ->%list_elem_of_singleton. left. unfold socket_emit. eauto.
    + destruct (negb _); cbn [snd].
      * intros ->%list_elem_of_singleton. left. unfold socket_to. eauto.
      * intros H. apply not_elem_of_nil in H. contradiction.
  - destruct (rooms st !! r) as [us|] eqn:E.
    + rewrite (on_leave_known env c r st us E). cbn [snd].
      intros [->|H]%elem_of_cons; [left; unfold io_to; eauto|].
      destruct (scrub c us); [apply not_elem_of_nil in H; contradiction|].
      right. eauto.
    + rewrite (on_leave_unknown env c r st E).
      intros H. apply not_elem_of_nil in H. contradiction.
  - intros ->%list_elem_of_singleton. left. unfold io_to. eauto.
  - intros ->%list_elem_of_singleton. left. unfold io_to. eauto.
  - intros ->%list_elem_of_singleton. left. unfold io_to. eauto.
  - rewrite on_disconnect_spec. cbn [snd].
    intros (k & He & _)%list_elem_of_bind. unfold room_effects in He.
    destruct (rooms st !! k) as [us|];
      [|apply not_elem_of_nil in He; contradiction].
    apply elem_of_cons in He as [->|He]; [left; unfold io_to; eauto|].
    destruct (length _ =? 0)%nat; [right; eauto|].
    apply not_elem_of_nil in He. contradiction.
Qed.

Lemma step_network (base : option string) (net net' : string -> fetch_outcome)
  (st : server) (ev : event) :
  step {| RESUME_BASE := base; network := net |} st ev
  = step {| RESUME_BASE := base; network := net' |} st ev.
Proof.
  destruct ev as [c|c r|c r|c r X to|c r X to|c X to|c];
    try rewrite !step_join; cbn [step]; try reflexivity.
  - unfold on_leave_voice_room. rewrite !spawn_finalize_on_leave. reflexivity.
  - rewrite !on_disconnect_spec. reflexivity.
Qed.

Lemma posts_without_fetch (effs : list effect) :
  (forall e, e ∈ effs -> exists t rs m, e = Emit t rs m) -> posts effs = [].
Proof.
  induction effs as [|e effs IH]; intros H; [reflexivity|].
  destruct (H e (list_elem_of_here e effs)) as (t & rs & m & ->).
  cbn. apply IH. intros e' He'. apply H, list_elem_of_further, He'.
Qed.

(** C9.  Whatever the network does with the finalize request (the
    request fails, the response has an error status, its body cannot be
    read), the async function of the hook ends normally after at most
    one request; no rejection is left unhandled; and the handler that
    called it leaves the same state and the same effects as with any
    other behaviour of the network.  Without a non-empty [RESUME_BASE]
    no request is issued. *)
Theorem finalize_failures_are_swallowed (base : option string)
  (net net' : string -> fetch_outcome) (st : server) (ev : event)
  (r : string) (log : list string) :
  step {| RESUME_BASE := base; network := net |} st ev
  = step {| RESUME_BASE := base; network := net' |} st ev
  /\ (UnhandledRejection
      ∉ (step {| RESUME_BASE := base; network := net |} st ev).2)
  /\ finalize_on_leave {| RESUME_BASE := base; network := net |} r log
     = (log ++ finalize_requests {| RESUME_BASE := base; network := net |} r,
        Returned tt)
  /\ finalize_on_disconnect {| RESUME_BASE := base; network := net |} r log
     = (log ++ finalize_requests {| RESUME_BASE := base; network := net |} r,
        Returned tt)
  /\ (length (finalize_requests {| RESUME_BASE := base; network := net |} r)
      <= 1)%nat
  /\ (truthy base = None ->
      posts (step {| RESUME_BASE := base; network := net |} st ev).2 = []).
Proof.
  split; [apply step_network|]. split; [|split; [|split; [|split]]].
  - intros H. apply step_effects_shape in H as [(t & rs & m & H)|[r' H]].
    + discriminate.
    + apply list_elem_of_fmap in H as (u & H & _). discriminate.
  - apply finalize_on_leave_runs.
  - apply finalize_on_disconnect_runs.
  - apply finalize_requests_short.
  - intros Hbase. apply posts_without_fetch. intros e He.
    apply step_effects_shape in He as [He|[r' He]]; [exact He|].
    unfold finalize_requests in He. cbn in He. rewrite Hbase in He.
    apply not_elem_of_nil in He. contradiction.
Qed.

Example failed_finalize_changes_nothing :
  sent (run resume_down
          [connection "c1"; join_voice_room "c1" "a";
           leave_voice_room "c1" "a"] init).2
  = [(to_room_except "a" "c1", [], user_joined "c1");
     (to_room "a", [], user_left "c1")]
  /\ posts (run resume_down
              [connection "c1"; join_voice_room "c1" "a";
               leave_voice_room "c1" "a"] init).2
     = ["https://resume.example.org/api/audio/finalize?roomId=a"]
  /\ keys (rooms (run resume_down
                    [connection "c1"; join_voice_room "c1" "a";
                     leave_voice_room "c1" "a"] init).1) = [].
Proof. vm_compute. repeat split; reflexivity. Qed.

(** * Further properties of the current server *)

(** ** What the registry always satisfies *)

(** X3.  After any sequence of events a socket appears at most once
    among the users of a room: the [includes] test of the join handler
    keeps every list free of repetitions, and a leave or a disconnect only
    removes. *)
Theorem users_never_repeat (env : environment) (evs : list event)
  (r : string) :
  NoDup (users (run env evs init).1 r).
Proof. apply consistent_users_NoDup, consistent_run, consistent_init. Qed.

(** X4.  After any sequence of events the registry and the transport
    rooms say the same: every user of a room is in the transport room of
    that name, so that a broadcast to the room reaches it; and a socket in
    a transport room is a user of the room of that name, or is a connected
    socket in the room of its own id. *)
Theorem registry_matches_transport (env : environment) (evs : list event)
  (r c : string) :
  (c ∈ users (run env evs init).1 r ->
   c ∈ members (adapter (run env evs init).1) r)
  /\ (c ∈ members (adapter (run env evs init).1) r ->
      c ∈ users (run env evs init).1 r
      \/ (c = r /\ c ∈ sockets (run env evs init).1)).
Proof.
  pose proof (consistent_run env evs init consistent_init)
    as (_ & _ & _ & Hs & Hc).
  split; [apply Hc|apply Hs].
Qed.

(** ** A join that succeeds, a leave by a user *)




Lemma filter_member_length (c : string) (us : list string) :
  NoDup us -> c ∈ us ->
  S (length (filter (fun u => u ≠ c) us)) = length us.
Proof.
  induction 1 as [|u us Hu Hnd IH]; intros Hc.
  - apply not_elem_of_nil in Hc. contradiction.
  - destruct (decide (u = c)) as [->|Hne].
    + rewrite filter_cons_False by (intros H; apply H; reflexivity).
      rewrite (filter_absent c us Hu). reflexivity.
    + rewrite filter_cons_True by exact Hne. cbn. f_equal. apply IH.
      apply elem_of_cons in Hc as [->|Hc]; [contradiction|exact Hc].
Qed.

Lemma filter_only (c : string) (us : list string) :
  NoDup us -> us ≠ [] -> filter (fun u => u ≠ c) us = [] -> us = [c].
Proof.
  intros Hnd Hne Hf. destruct us as [|u us]; [contradiction|].
  destruct (decide (u = c)) as [->|Hu].
  - rewrite filter_cons_False in Hf by (intros H; apply H; reflexivity).
    apply NoDup_cons in Hnd as [Hc _].
    rewrite (filter_absent c us Hc) in Hf. subst us. reflexivity.
  - rewrite filter_cons_True in Hf by exact Hu. discriminate.
Qed.

Lemma emissions_cons_emit' (t : target) (rs : gset string) (m : message)
  (l : list effect) :
  emissions (Emit t rs m :: l) = Emit t rs m :: emissions l.
Proof. reflexivity. Qed.

(** X6.  When a user of a room leaves it, the room loses exactly that
    user: the others stay, in their order, and the size goes down by one;
    the room stays in the registry unless the socket was its only user;
    the other rooms are untouched.  One [user-left] with the socket's id
    is emitted: every remaining user receives it, and the leaving socket
    receives nothing. *)
Theorem leave_of_member (env : environment) (evs : list event)
  (c r : string) :
  c ∈ users (run env evs init).1 r ->
  users (on_leave_voice_room env c r (run env evs init).1).1 r
  = filter (fun u => u ≠ c) (users (run env evs init).1 r)
  /\ S (length (users (on_leave_voice_room env c r (run env evs init).1).1 r))
     = length (users (run env evs init).1 r)
  /\ (is_Some (rooms (on_leave_voice_room env c r (run env evs init).1).1 !! r)
      <-> users (run env evs init).1 r ≠ [c])
  /\ (forall r', r' ≠ r ->
        rooms (on_leave_voice_room env c r (run env evs init).1).1 !! r'
        = rooms (run env evs init).1 !! r')
  /\ emissions (on_leave_voice_room env c r (run env evs init).1).2
     = [Emit (to_room r)
          (members (adapter (run env evs init).1) r ∖ {[c]})
          (user_left c)]
  /\ (forall u, u ∈ users (run env evs init).1 r -> u ≠ c ->
        receives u (user_left c)
          (on_leave_voice_room env c r (run env evs init).1).2)
  /\ (forall m,
        ~ receives c m (on_leave_voice_room env c r (run env evs init).1).2).
Proof.
  pose proof (consistent_run env evs init consistent_init) as Hst.
  set (st := (run env evs init).1) in *.
  pose proof Hst as (He & _ & Hd & _ & Hc). intros Hin.
  destruct (rooms st !! r) as [us|] eqn:E;
    [|unfold users in Hin; rewrite E in Hin;
      apply not_elem_of_nil in Hin; contradiction].
  pose proof (users_lookup st r us E) as Hus. rewrite Hus in *.
  assert (Heff : (on_leave_voice_room env c r st).2
    = Emit (to_room r) (members (adapter st) r ∖ {[c]}) (user_left c)
      :: match scrub c us with
         | Some _ => []
         | None => Fetch_POST <$> finalize_requests env r
         end).
  { rewrite (on_leave_known env c r st us E). cbn [snd]. unfold io_to.
    rewrite members_socket_leave, decide_True by reflexivity. reflexivity. }
  assert (Hafter : users (on_leave_voice_room env c r st).1 r
                   = filter (fun u => u ≠ c) us).
  { rewrite users_after_leave, decide_True by reflexivity.
    rewrite Hus. reflexivity. }
  split; [exact Hafter|]. split; [|split; [|split; [|split; [|split]]]].
  - rewrite Hafter. apply filter_member_length; [eapply Hd, E|exact Hin].
  - rewrite (on_leave_known env c r st us E). cbn [fst rooms].
    destruct (scrub c us) as [us'|] eqn:S.
    + rewrite lookup_insert_eq. split; [|eauto]. intros _ ->.
      rewrite scrub_last_user in S. discriminate.
    + rewrite lookup_delete_eq. split; [intros [x Hx]; discriminate|].
      intros Hne. contradiction Hne.
      apply filter_only; [eapply Hd, E|eapply He, E|apply scrub_None, S].
  - intros r' Hne. rewrite (on_leave_known env c r st us E). cbn [fst rooms].
    destruct (scrub c us);
      [apply lookup_insert_ne|apply lookup_delete_ne]; congruence.
  - rewrite Heff, emissions_cons_emit'.
    destruct (scrub c us); [reflexivity|].
    rewrite emissions_fetches. reflexivity.
  - intros u Hu Hne. rewrite Heff. eexists _, _.
    split; [apply list_elem_of_here|].
    apply elem_of_difference. split; [apply Hc; rewrite Hus; exact Hu|].
    rewrite elem_of_singleton. exact Hne.
  - intros m (t & rs & Hin' & Hrs). rewrite Heff in Hin'.
    apply elem_of_cons in Hin' as [Heq|Hin'].
    + injection Heq as _ -> _.
      apply elem_of_difference in Hrs as [_ Hrs]. apply Hrs.
      apply elem_of_singleton. reflexivity.
    + destruct (scrub c us); [apply not_elem_of_nil in Hin'; exact Hin'|].
      apply list_elem_of_fmap in Hin' as (u & Hu & _). discriminate.
Qed.

Lemma leave_of_member_witness :
  "c1" ∈ users (run quiet bystander init).1 "a"
  /\ users (on_leave_voice_room quiet "c1" "a" (run quiet bystander init).1).1
       "a"
     = filter (fun u => u ≠ "c1") (users (run quiet bystander init).1 "a").
Proof.
  assert (H : "c1" ∈ users (run quiet bystander init).1 "a") by by_evaluation.
  split; [exact H|].
  destruct (leave_of_member quiet bystander "c1" "a" H) as (Hu & _).
  exact Hu.
Defined.

(** ** Join, then leave *)

(** X7.  A join that succeeds (the socket is not in the room, the room
    has fewer than ten users and its identifier is not a name inherited
    from [Object.prototype]) followed by a leave of the same room by the
    same socket gives back the registry as it was: a room the join
    created is deleted again, a room that was there keeps the users it
    had, in their order.  The hook is called exactly when the room did
    not exist before, and issues then the requests of
    [finalize_requests]. *)
Theorem join_then_leave_restores_registry (env : environment)
  (evs : list event) (c r : string) :
  c ∉ users (run env evs init).1 r ->
  (length (users (run env evs init).1 r) < 10)%nat ->
  inherited r = false ->
  rooms (run env [join_voice_room c r; leave_voice_room c r]
           (run env evs init).1).1
  = rooms (run env evs init).1
  /\ posts (run env [join_voice_room c r; leave_voice_room c r]
              (run env evs init).1).2
     = match rooms (run env evs init).1 !! r with
       | Some _ => []
       | None => finalize_requests env r
       end.
Proof.
  pose proof (consistent_run env evs init consistent_init) as Hst.
  set (st := (run env evs init).1) in *.
  pose proof Hst as (He & _). intros Hout Hroom Hown.
  unfold run. cbn [foldl run_step fst snd].
  rewrite (step_join_own env st c r (fun _ => Hown)). cbn [step].
  rewrite app_nil_l, posts_app, leave_posts.
  rewrite (on_join_new c r st Hroom Hout). cbn [fst snd].
  assert (Hf : filter (fun u => u ≠ c) (users st r ++ [c]) = users st r).
  { rewrite filter_app, filter_last_user, app_nil_r.
    apply filter_absent, Hout. }
  erewrite on_leave_known by (cbn [rooms]; apply lookup_insert_eq).
  cbn [fst rooms]. rewrite lookup_insert_eq. cbn.
  unfold users in *. destruct (rooms st !! r) as [us|] eqn:E; cbn in *.
  - assert (S : scrub c (us ++ [c]) = Some us).
    { unfold scrub. rewrite Hf. destruct us as [|u us]; [|reflexivity].
      contradiction (He r [] E). reflexivity. }
    rewrite S. split; [|reflexivity].
    rewrite insert_insert_eq. apply insert_id, E.
  - assert (S : scrub c [c] = None) by apply scrub_last_user.
    rewrite S. split; [|reflexivity].
    rewrite delete_insert_eq. apply delete_id, E.
Qed.

Lemma join_then_leave_restores_registry_witness :
  ("c2" ∉ users (run quiet bystander init).1 "a")
  /\ inherited "a" = false
  /\ rooms (run quiet [join_voice_room "c2" "a"; leave_voice_room "c2" "a"]
              (run quiet bystander init).1).1
     = rooms (run quiet bystander init).1.
Proof.
  assert (H : "c2" ∉ users (run quiet bystander init).1 "a") by by_evaluation.
  assert (L : (length (users (run quiet bystander init).1 "a") < 10)%nat)
    by by_evaluation.
  assert (Hown : inherited "a" = false) by (vm_compute; reflexivity).
  split; [exact H|]. split; [exact Hown|].
  apply (join_then_leave_restores_registry quiet bystander "c2" "a" H L Hown).
Defined.

(** ** Disconnect and the finalize hook *)

Lemma scrub_None_only (c : string) (us : list string) :
  NoDup us -> us ≠ [] -> (scrub c us = None <-> us = [c]).
Proof.
  intros Hnd Hne. split.
  - intros S. apply filter_only; [exact Hnd|exact Hne|apply scrub_None, S].
  - intros ->. apply scrub_last_user.
Qed.

Lemma posts_sweep (f : string -> list string) (c : string)
  (a : gmap string (gset string)) (rs : gmap string (list string))
  (ks : list string) :
  no_empty_room rs -> no_duplicates rs ->
  posts (ks ≫= room_effects (fun r => Fetch_POST <$> f r) c a rs)
  = filter (fun k => rs !! k = Some [c]) ks ≫= f.
Proof.
  intros He Hd. induction ks as [|k ks IH]; [reflexivity|].
  rewrite bind_cons, posts_app, IH.
  unfold room_effects at 1.
  destruct (rs !! k) as [us|] eqn:E.
  - pose proof (scrub_None_only c us (Hd k us E) (He k us E)) as Hs.
    unfold scrub in Hs.
    destruct (length (filter (fun u => u ≠ c) us) =? 0)%nat.
    + assert (us = [c]) as -> by (apply Hs; reflexivity).
      rewrite filter_cons_True by exact E. rewrite bind_cons.
      cbn. f_equal. apply posts_fetches.
    + rewrite filter_cons_False; [reflexivity|].
      rewrite E. intros Heq. injection Heq as ->.
      destruct Hs as [_ Hs]. specialize (Hs eq_refl). discriminate.
  - rewrite filter_cons_False by (rewrite E; discriminate). reflexivity.
Qed.

(** X8.  On a disconnect the hook is called once for each room the
    socket was the only user of, and for no other room: the requests
    issued are those of these rooms (for each, the one request of
    [finalize_requests] when [RESUME_BASE] is set); and the rooms deleted
    from the registry are exactly these. *)
Theorem disconnect_finalizes_each_emptied_room (env : environment)
  (evs : list event) (c : string) :
  posts (on_disconnect env c (run env evs init).1).2
  = filter (fun r => rooms (run env evs init).1 !! r = Some [c])
      (keys (rooms (run env evs init).1))
    ≫= finalize_requests env
  /\ (forall r,
        rooms (on_disconnect env c (run env evs init).1).1 !! r = None
        <-> rooms (run env evs init).1 !! r = None
            \/ rooms (run env evs init).1 !! r = Some [c]).
Proof.
  pose proof (consistent_run env evs init consistent_init) as Hst.
  set (st := (run env evs init).1) in *.
  pose proof Hst as (He & _ & Hd & _). split.
  - rewrite on_disconnect_spec. cbn [snd]. apply posts_sweep; assumption.
  - intros r. rewrite rooms_after_disconnect.
    destruct (rooms st !! r) as [us|] eqn:E; cbn.
    + rewrite (scrub_None_only c us (Hd r us E) (He r us E)).
      split; [intros ->; right; reflexivity|].
      intros [H|H]; [discriminate|]. injection H as ->. reflexivity.
    + split; [left|]; reflexivity.
Qed.

Lemma scrub_scrub (c : string) (o : option (list string)) :
  (o ≫= scrub c) ≫= scrub c = o ≫= scrub c.
Proof.
  destruct o as [us|]; cbn; [|reflexivity].
  destruct (scrub c us) as [us'|] eqn:S; cbn; [|reflexivity].
  apply scrub_Some in S as [-> Hne].
  apply scrub_absent; [|exact Hne].
  rewrite elem_of_scrubbed. intros [H _]. apply H. reflexivity.
Qed.

(** X9.  A disconnect handled a second time for the same socket, from
    any state, leaves the registry as the first left it and calls the hook
    for no room: the first has taken the socket out of every room and has
    left no empty room behind. *)
Theorem disconnect_twice (env : environment) (st : server) (c : string) :
  rooms (on_disconnect env c (on_disconnect env c st).1).1
  = rooms (on_disconnect env c st).1
  /\ posts (on_disconnect env c (on_disconnect env c st).1).2 = []
  /\ (forall r us, rooms (on_disconnect env c st).1 !! r = Some us ->
        us ≠ [] /\ c ∉ us).
Proof.
  assert (Hclean : forall r us,
    rooms (on_disconnect env c st).1 !! r = Some us -> us ≠ [] /\ c ∉ us).
  { intros r us. rewrite rooms_after_disconnect.
    destruct (rooms st !! r) as [us0|]; cbn; [|discriminate].
    intros [-> Hne]%scrub_Some. split; [exact Hne|].
    rewrite elem_of_scrubbed. intros [H _]. apply H. reflexivity. }
  split; [|split; [|exact Hclean]].
  - apply map_eq. intros r. rewrite !rooms_after_disconnect.
    apply scrub_scrub.
  - rewrite (on_disconnect_spec env c (on_disconnect env c st).1). cbn [snd].
    apply posts_kept_rooms. intros k us E.
    destruct (Hclean k us E) as [Hne Hc].
    rewrite (scrub_absent c us Hc Hne). discriminate.
Qed.

(** ** Filling a room *)

Lemma sent_app (l1 l2 : list effect) : sent (l1 ++ l2) = sent l1 ++ sent l2.
Proof. unfold sent. apply omap_app. Qed.

Lemma users_after_leave_same (env : environment) (c r : string) (st : server) :
  users (on_leave_voice_room env c r st).1 r
  = filter (fun u => u ≠ c) (users st r).
Proof.
  rewrite users_after_leave.
  destruct (decide (r = r)) as [_|H]; [reflexivity|contradiction].
Qed.

Lemma users_after_join_same (c r : string) (st : server) :
  users (on_join_voice_room c r st).1 r
  = if decide ((10 <= length (users st r))%nat \/ c ∈ users st r)
    then users st r else users st r ++ [c].
Proof.
  rewrite users_after_join.
  destruct (decide (r = r)) as [_|H]; [reflexivity|contradiction].
Qed.

(** X10.  When sockets that are all different join, one after the
    other, a room that is not in the registry and whose identifier is
    not a name inherited from [Object.prototype], the first ten become
    its users, in the order of their joins; each of the others is
    refused with a [room-full] sent to it alone, in the order of the
    attempts. *)
Theorem joins_fill_room_in_order (env : environment) (st : server)
  (r : string) (cs : list string) :
  rooms st !! r = None -> inherited r = false -> NoDup cs ->
  users (run env (joins r cs) st).1 r = take 10 cs
  /\ sent (List.filter is_room_full (run env (joins r cs) st).2)
     = (fun c => (to_socket c, [c], room_full r 10)) <$> drop 10 cs.
Proof.
  intros Hr Hown. induction cs as [|c cs IH] using rev_ind; intros Hnd.
  - split; [|reflexivity]. cbn. unfold users. rewrite Hr. reflexivity.
  - apply NoDup_app in Hnd as (Hnd & Hc & _).
    destruct (IH Hnd) as [IHu IHe].
    unfold joins in *. rewrite fmap_app. cbn [fmap list_fmap].
    rewrite run_snoc. unfold run_step. cbn [fst snd].
    rewrite (step_join_own env _ c r (fun _ => Hown)).
    rewrite List.filter_app, sent_app, IHe.
    set (st' := (run env ((fun c => join_voice_room c r) <$> cs) st).1) in *.
    rewrite users_after_join_same. rewrite IHu.
    destruct (decide (length cs < 10)%nat) as [Hlt|Hge].
    + assert (Ht : take 10 cs = cs) by (apply take_ge; lia).
      rewrite Ht in *.
      assert (Hout : c ∉ users st' r).
      { rewrite IHu. intros Hin. apply (Hc c Hin).
        apply list_elem_of_singleton. reflexivity. }
      rewrite decide_False
        by (intros [H|H]; [lia|rewrite IHu in Hout; contradiction]).
      rewrite (on_join_new c r st') by first [rewrite IHu; lia | exact Hout].
      cbn [snd List.filter is_room_full socket_to sent omap].
      rewrite take_ge by (rewrite length_app; cbn; lia).
      rewrite !drop_ge by (rewrite ?length_app; cbn; lia).
      split; reflexivity.
    + assert (Hlen : length (take 10 cs) = 10)
        by (rewrite length_take; lia).
      rewrite decide_True by (left; lia).
      rewrite (on_join_full c r st') by (rewrite IHu; lia).
      rewrite take_app_le by lia. split; [reflexivity|].
      rewrite drop_app_le by lia. rewrite fmap_app.
      cbn. rewrite elements_singleton. reflexivity.
Qed.

Lemma joins_fill_room_in_order_witness :
  rooms (run quiet (connection <$> eleven) init).1 !! "r" = None
  /\ inherited "r" = false
  /\ NoDup eleven
  /\ users (run quiet (joins "r" eleven)
              (run quiet (connection <$> eleven) init).1).1 "r"
     = take 10 eleven.
Proof.
  assert (H : rooms (run quiet (connection <$> eleven) init).1 !! "r" = None)
    by (vm_compute; reflexivity).
  assert (Hown : inherited "r" = false) by (vm_compute; reflexivity).
  assert (N : NoDup eleven) by by_evaluation.
  split; [exact H|]. split; [exact Hown|]. split; [exact N|].
  apply (joins_fill_room_in_order quiet _ "r" eleven H Hown N).
Defined.

(** X11.  A room that has ten users refuses a join, and accepts it as
    soon as one of its users has left it or has disconnected: the socket
    is then added after the nine that remain. *)
Theorem freed_slot_can_be_taken (env : environment) (evs : list event)
  (c d r : string) :
  c ∈ users (run env evs init).1 r ->
  d ∉ users (run env evs init).1 r ->
  length (users (run env evs init).1 r) = 10 ->
  on_join_voice_room d r (run env evs init).1
  = ((run env evs init).1, [Emit (to_socket d) {[d]} (room_full r 10)])
  /\ users (on_join_voice_room d r
              (on_leave_voice_room env c r (run env evs init).1).1).1 r
     = filter (fun u => u ≠ c) (users (run env evs init).1 r) ++ [d]
  /\ users (on_join_voice_room d r
              (on_disconnect env c (run env evs init).1).1).1 r
     = filter (fun u => u ≠ c) (users (run env evs init).1 r) ++ [d].
Proof.
  pose proof (consistent_run env evs init consistent_init) as Hst.
  set (st := (run env evs init).1) in *. intros Hc Hd Hlen.
  pose proof (filter_member_length c (users st r)
                (consistent_users_NoDup st r Hst) Hc) as Hf.
  assert (Hd' : d ∉ filter (fun u => u ≠ c) (users st r))
    by (rewrite elem_of_scrubbed; tauto).
  split; [apply on_join_full; lia|]. split.
  - rewrite users_after_join_same.
    rewrite users_after_leave_same.
    rewrite decide_False; [reflexivity|]. intros [H|H]; [lia|contradiction].
  - rewrite users_after_join_same.
    rewrite users_after_disconnect.
    rewrite decide_False; [reflexivity|]. intros [H|H]; [lia|contradiction].
Qed.

Lemma freed_slot_can_be_taken_witness :
  "c0" ∈ users (run quiet eleven_joins init).1 "r"
  /\ ("c10" ∉ users (run quiet eleven_joins init).1 "r")
  /\ users (on_join_voice_room "c10" "r"
              (on_leave_voice_room quiet "c0" "r"
                 (run quiet eleven_joins init).1).1).1 "r"
     = filter (fun u => u ≠ "c0") (users (run quiet eleven_joins init).1 "r")
       ++ ["c10"].
Proof.
  assert (Hc : "c0" ∈ users (run quiet eleven_joins init).1 "r")
    by by_evaluation.
  assert (Hd : "c10" ∉ users (run quiet eleven_joins init).1 "r")
    by by_evaluation.
  assert (Hl : length (users (run quiet eleven_joins init).1 "r") = 10)
    by (vm_compute; reflexivity).
  split; [exact Hc|]. split; [exact Hd|].
  destruct (freed_slot_can_be_taken quiet eleven_joins "c0" "c10" "r" Hc Hd Hl)
    as (_ & H & _).
  exact H.
Defined.

(** ** Only connected sockets *)

Lemma run_state_acc (env : environment) (evs : list event) (st : server)
  (acc acc' : list effect) :
  (foldl (run_step env) (st, acc) evs).1
  = (foldl (run_step env) (st, acc') evs).1.
Proof.
  revert st acc acc'. induction evs as [|ev evs IH]; intros st acc acc';
    [reflexivity|].
  cbn [foldl]. unfold run_step at 2 4. cbn [fst snd]. apply IH.
Qed.

Lemma run_state_cons (env : environment) (ev : event) (evs : list event)
  (st : server) :
  (run env (ev :: evs) st).1 = (run env evs (step env st ev).1).1.
Proof.
  unfold run. cbn [foldl]. unfold run_step at 2. cbn [fst snd].
  apply run_state_acc.
Qed.

Lemma sockets_after_step (env : environment) (st : server) (ev : event) :
  sockets (step env st ev).1 = live_after (sockets st) ev.
Proof.
  destruct ev as [c|c r|c r|c r X to|c r X to|c X to|c];
    try rewrite step_join; cbn [step live_after]; try reflexivity.
  - destruct (finds_prototype_value _ _); [reflexivity|].
    apply adapter_after_join.
  - apply adapter_after_leave.
Qed.

(** Every socket in a transport room is connected. *)
Lemma members_connected_step (env : environment) (st : server) (ev : event) :
  allowed (sockets st) ev = true ->
  (forall r c, c ∈ members (adapter st) r -> c ∈ sockets st) ->
  forall r c, c ∈ members (adapter (step env st ev).1) r ->
              c ∈ sockets (step env st ev).1.
Proof.
  intros Hev Hst r x. rewrite sockets_after_step.
  destruct ev as [c|c r0|c r0|c r0 X to|c r0 X to|c X to|c];
    try rewrite step_join;
    cbn [step live_after allowed sender] in *;
    try apply bool_decide_eq_true_1 in Hev; try apply Hst.
  - cbn. rewrite members_socket_join.
    destruct (decide (r = c)) as [->|_]; [|intros H; apply elem_of_union_r, (Hst r x H)].
    rewrite !elem_of_union, elem_of_singleton.
    intros [->|H]; [left; reflexivity|right; apply (Hst c x H)].
  - destruct (finds_prototype_value _ _); [apply Hst|].
    destruct (adapter_after_join c r0 st) as [[-> | ->] _]; [apply Hst|].
    rewrite members_socket_join.
    destruct (decide (r = r0)) as [->|_]; [|apply Hst].
    rewrite elem_of_union, elem_of_singleton.
    intros [->|H]; [exact Hev|apply (Hst r0 x H)].
  - destruct (adapter_after_leave env c r0 st) as [-> _].
    rewrite members_socket_leave.
    destruct (decide (r = r0)) as [->|_]; [|apply Hst].
    rewrite elem_of_difference. intros [H _]. apply (Hst r0 x H).
  - cbn. rewrite members_leaveAll, !elem_of_difference.
    intros [H Hx]. split; [apply (Hst r x H)|exact Hx].
Qed.

Lemma members_connected_run (env : environment) (evs : list event) :
  forall st,
    well_formed_from (sockets st) evs = true ->
    (forall r c, c ∈ members (adapter st) r -> c ∈ sockets st) ->
    forall r c, c ∈ members (adapter (run env evs st).1) r ->
                c ∈ sockets (run env evs st).1.
Proof.
  induction evs as [|ev evs IH]; intros st Hwf Hst; [exact Hst|].
  cbn [well_formed_from] in Hwf. apply andb_prop in Hwf as [Hev Hwf].
  intros r c. rewrite run_state_cons. apply IH.
  - rewrite sockets_after_step. exact Hwf.
  - apply members_connected_step; assumption.
Qed.

Lemma well_formed_snoc (env : environment) (evs : list event) (ev : event) :
  forall st,
    well_formed_from (sockets st) (evs ++ [ev]) = true ->
    well_formed_from (sockets st) evs = true
    /\ allowed (sockets (run env evs st).1) ev = true.
Proof.
  induction evs as [|e evs IH]; intros st Hwf.
  - cbn in *. apply andb_prop in Hwf as [Hev _]. split; [reflexivity|exact Hev].
  - cbn [app well_formed_from] in *. apply andb_prop in Hwf as [He Hwf].
    rewrite <- (sockets_after_step env st e) in Hwf.
    destruct (IH _ Hwf) as [H1 H2].
    rewrite run_state_cons. split; [|exact H2].
    rewrite He, <- (sockets_after_step env st e). exact H1.
Qed.

Lemma step_recipients (env : environment) (st : server) (ev : event)
  (t : target) (rs : gset string) (m : message) :
  Emit t rs m ∈ (step env st ev).2 ->
  (rs = {[sender ev]} /\ exists r, ev = join_voice_room (sender ev) r)
  \/ exists r, rs ⊆ members (adapter (step env st ev).1) r.
Proof.
  destruct ev as [c|c r|c r|c r X to|c r X to|c X to|c];
    try rewrite step_join; cbn [step sender].
  - intros H. apply not_elem_of_nil in H. contradiction.
  - destruct (finds_prototype_value _ _);
      [intros H; apply not_elem_of_nil in H; contradiction|].
    unfold on_join_voice_room.
    destruct (10 <=? length _)%nat; cbn [fst snd adapter].
    + intros H%list_elem_of_singleton. injection H as _ -> _.
      left. split; [reflexivity|]. exists r. reflexivity.
    + destruct (negb _); cbn [snd].
      * intros H%list_elem_of_singleton. injection H as _ -> _.
        right. exists r. apply subseteq_difference_l. reflexivity.
      * intros H. apply not_elem_of_nil in H. contradiction.
  - destruct (adapter_after_leave env c r st) as [-> _].
    destruct (rooms st !! r) as [us|] eqn:E.
    + rewrite (on_leave_known env c r st us E). cbn [snd].
      intros [H|H]%elem_of_cons.
      * injection H as _ -> _. right. exists r. reflexivity.
      * destruct (scrub c us); [apply not_elem_of_nil in H; contradiction|].
        apply list_elem_of_fmap in H as (u & H & _). discriminate.
    + rewrite (on_leave_unknown env c r st E).
      intros H. apply not_elem_of_nil in H. contradiction.
  - intros H%list_elem_of_singleton. injection H as _ -> _.
    right. exists to. reflexivity.
  - intros H%list_elem_of_singleton. injection H as _ -> _.
    right. exists to. reflexivity.
  - intros H%list_elem_of_singleton. injection H as _ -> _.
    right. exists to. reflexivity.
  - rewrite on_disconnect_spec. cbn [fst snd adapter].
    intros (k & He & _)%list_elem_of_bind. unfold room_effects in He.
    destruct (rooms st !! k) as [us|];
      [|apply not_elem_of_nil in He; contradiction].
    apply elem_of_cons in He as [He|He].
    + injection He as _ -> _. right. exists k. reflexivity.
    + destruct (length _ =? 0)%nat;
        [|apply not_elem_of_nil in He; contradiction].
      apply list_elem_of_fmap in He as (u & He & _). discriminate.
Qed.

(** X12.  In a run in which every event comes from a socket that is
    connected when it sends it (and every connection brings a new id),
    only connected sockets are users of a room or members of a transport
    room: a disconnect leaves no trace of the socket.  And whatever the
    last event of such a run makes the server emit reaches no socket that
    is not connected once the event is handled; in particular a socket
    never receives the [user-left] of its own disconnect. *)
Theorem no_ghost_users (env : environment) (evs : list event) (ev : event) :
  well_formed_from ∅ (evs ++ [ev]) = true ->
  (forall r c, c ∈ users (run env evs init).1 r ->
               c ∈ sockets (run env evs init).1)
  /\ (forall r c, c ∈ members (adapter (run env evs init).1) r ->
                  c ∈ sockets (run env evs init).1)
  /\ (forall t rs m c,
        Emit t rs m ∈ (step env (run env evs init).1 ev).2 -> c ∈ rs ->
        c ∈ sockets (step env (run env evs init).1 ev).1).
Proof.
  intros Hwf.
  destruct (well_formed_snoc env evs ev init Hwf) as [Hevs Hev].
  assert (Hinit : forall r c, c ∈ members (adapter init) r -> c ∈ sockets init).
  { intros r c. unfold members. cbn. rewrite lookup_empty. cbn.
    intros H. apply elem_of_empty in H. contradiction. }
  pose proof (members_connected_run env evs init Hevs Hinit) as Hm.
  pose proof (consistent_run env evs init consistent_init)
    as (_ & _ & _ & _ & Hc).
  split; [intros r c Hu; apply (Hm r), Hc, Hu|]. split; [exact Hm|].
  intros t rs m c Hin Hrs.
  destruct (step_recipients env _ ev t rs m Hin) as [[-> [r Hj]]|[r Hsub]].
  - apply elem_of_singleton in Hrs. subst c.
    rewrite sockets_after_step.
    destruct ev; try discriminate. cbn [live_after sender allowed] in *.
    apply bool_decide_eq_true_1 in Hev. exact Hev.
  - apply (members_connected_step env _ ev Hev Hm r), Hsub, Hrs.
Qed.

Lemma no_ghost_users_witness :
  well_formed_from ∅ (bystander ++ [disconnect "c1"]) = true
  /\ (forall r c, c ∈ users (run quiet bystander init).1 r ->
                  c ∈ sockets (run quiet bystander init).1).
Proof.
  assert (H : well_formed_from ∅ (bystander ++ [disconnect "c1"]) = true)
    by (vm_compute; reflexivity).
  split; [exact H|].
  apply (no_ghost_users quiet bystander (disconnect "c1") H).
Defined.

(** ** Room names and socket ids share the transport rooms *)

(** X13.  The leave handler starts with [socket.leave(roomId)], whatever
    the registry holds.  A socket that sends [leave-voice-room] with its
    own id as the room leaves the transport room of its id: from then on
    an offer, an answer or a candidate addressed to it is not delivered
    to it. *)
Theorem leave_of_own_id_cuts_direct_messages (env : environment)
  (st : server) (c : string) (ev : event) (m : message) :
  relay_of ev = Some (c, m) ->
  (c ∉ members (adapter (on_leave_voice_room env c c st).1) c)
  /\ (forall m',
        ~ receives c m' (step env (on_leave_voice_room env c c st).1 ev).2).
Proof.
  intros Hev.
  assert (Hout : c ∉ members (adapter (on_leave_voice_room env c c st).1) c).
  { destruct (adapter_after_leave env c c st) as [-> _].
    rewrite members_socket_leave, decide_True by reflexivity.
    rewrite elem_of_difference, elem_of_singleton. intros [_ H].
    apply H. reflexivity. }
  split; [exact Hout|].
  intros m' (t & rs & Hin & Hrs).
  rewrite (step_relay env _ ev c m Hev) in Hin. cbn [snd] in Hin.
  apply list_elem_of_singleton in Hin. injection Hin as _ -> _.
  contradiction.
Qed.

Lemma leave_of_own_id_cuts_direct_messages_witness :
  relay_of (on_voice_offer "c1" "a" "v=0" "c2")
  = Some ("c2", voice_offer "c1" "v=0" "a")
  /\ "c2" ∈ members (adapter (run quiet bystander init).1) "c2"
  /\ ("c2" ∉ members
        (adapter (on_leave_voice_room quiet "c2" "c2"
                    (run quiet bystander init).1).1) "c2").
Proof.
  split; [reflexivity|]. split; [by_evaluation|].
  apply (leave_of_own_id_cuts_direct_messages quiet _ "c2"
           (on_voice_offer "c1" "a" "v=0" "c2")
           (voice_offer "c1" "v=0" "a") eq_refl).
Defined.

(** X14.  The join handler passes the room name it is given to
    [socket.join].  A socket that joins the room named by the id of
    another socket (the room having fewer than ten users) is put in the
    transport room of that id: every offer, answer or candidate then
    addressed to that id is delivered to the joiner too. *)
Theorem join_of_socket_id_room_overhears (env : environment) (st : server)
  (c v : string) (ev : event) (m : message) :
  (length (users st v) < 10)%nat ->
  relay_of ev = Some (v, m) ->
  c ∈ members (adapter (on_join_voice_room c v st).1) v
  /\ receives c m (step env (on_join_voice_room c v st).1 ev).2.
Proof.
  intros Hroom Hev.
  assert (Hin : c ∈ members (adapter (on_join_voice_room c v st).1) v).
  { destruct (decide (c ∈ users st v)) as [Hc|Hc];
      [rewrite (on_join_member c v st Hroom Hc)
      |rewrite (on_join_new c v st Hroom Hc)];
      cbn [fst adapter]; rewrite members_socket_join, decide_True by reflexivity;
      apply elem_of_union_l, elem_of_singleton; reflexivity. }
  split; [exact Hin|].
  rewrite (step_relay env _ ev v m Hev). cbn [snd].
  eexists _, _. split; [apply list_elem_of_here|exact Hin].
Qed.

Lemma join_of_socket_id_room_overhears_witness :
  (length (users (run quiet bystander init).1 "c1") < 10)%nat
  /\ receives "c2" (ice_candidate "c9" "candidate:1")
       (step quiet (on_join_voice_room "c2" "c1" (run quiet bystander init).1).1
          (on_ice_candidate "c9" "candidate:1" "c1")).2.
Proof.
  assert (H : (length (users (run quiet bystander init).1 "c1") < 10)%nat)
    by by_evaluation.
  split; [exact H|].
  apply (join_of_socket_id_room_overhears quiet _ "c2" "c1"
           (on_ice_candidate "c9" "candidate:1" "c1")
           (ice_candidate "c9" "candidate:1") H eq_refl).
Defined.

(** * The older entry point *)

Lemma api_step_join (st : server) (c r : string) :
  Api.step st (join_voice_room c r)
  = if finds_prototype_value (rooms st) r then (st, [])
    else Api.on_join_voice_room c r st.
Proof.
  cbn [Api.step]. unfold Api.join_voice_room_listener.
  destruct (finds_prototype_value (rooms st) r); reflexivity.
Qed.

(** X15.  On [src/api/index.ts] too, after any sequence of events the
    registry holds no empty room: a room identifier is in the registry
    exactly when the room has users; and every user of a room is in the
    transport room of that name. *)
Theorem api_room_present_iff_nonempty (evs : list event) (r : string) :
  (is_Some (rooms (Api.run evs init).1 !! r)
   <-> users (Api.run evs init).1 r ≠ [])
  /\ (forall c, c ∈ users (Api.run evs init).1 r ->
                c ∈ members (adapter (Api.run evs init).1) r).
Proof.
  assert (Hinv : no_empty_room (rooms (Api.run evs init).1)
                 /\ adapter_complete (Api.run evs init).1).
  { induction evs as [|ev evs [He Hc]] using rev_ind.
    - destruct consistent_init as (He & _ & _ & _ & Hc). split; assumption.
    - unfold Api.run in *. rewrite foldl_app. cbn [foldl].
      unfold Api.run_step at 1 3. cbn [fst].
      set (st := (foldl Api.run_step (init, []) evs).1) in *.
      destruct ev as [c|c r0|c r0|c r0 X to|c r0 X to|c X to|c];
        try rewrite api_step_join;
        cbn [Api.step on_relay_offer on_relay_answer on_relay_candidate fst];
        try (split; assumption).
      + split; [exact He|]. intros r' x Hx. cbn.
        rewrite members_socket_join.
        destruct (decide (r' = c)) as [->|_]; [apply elem_of_union_r|];
          apply Hc, Hx.
      + destruct (finds_prototype_value (rooms st) r0);
          [split; assumption|].
        assert (Hu : forall r', users (Api.on_join_voice_room c r0 st).1 r'
                     = if decide (r' = r0) then users st r0 ++ [c]
                       else users st r').
        { intros r'. destruct (decide (r' = r0)) as [->|Hne].
          - apply api_join_appends.
          - unfold Api.on_join_voice_room, users. cbn [fst rooms].
            rewrite lookup_insert_ne by congruence.
            destruct (rooms st !! r0); [reflexivity|].
            rewrite lookup_insert_ne by congruence. reflexivity. }
        split.
        * intros r' us Hus.
          pose proof (Hu r') as Hr'. unfold users at 1 in Hr'.
          rewrite Hus in Hr'. cbn in Hr'.
          destruct (decide (r' = r0)) as [->|Hne].
          -- rewrite Hr'. intros Hnil.
             apply app_eq_nil in Hnil as [_ Hnil]. discriminate.
          -- unfold Api.on_join_voice_room in Hus. cbn [fst rooms] in Hus.
             rewrite lookup_insert_ne in Hus by congruence.
             destruct (rooms st !! r0);
               [|rewrite lookup_insert_ne in Hus by congruence];
               eapply He, Hus.
        * intros r' x. rewrite Hu. cbn [Api.on_join_voice_room fst adapter].
          rewrite members_socket_join.
          destruct (decide (r' = r0)) as [->|_]; [|apply Hc].
          rewrite elem_of_app, list_elem_of_singleton, elem_of_union,
            elem_of_singleton.
          intros [Hx| ->]; [right; apply Hc, Hx|left; reflexivity].
      + destruct (api_disconnect_agrees quiet c st) as [-> _]. split.
        * intros r' us. rewrite rooms_after_disconnect.
          destruct (rooms st !! r') as [us0|]; cbn; [|discriminate].
          intros [_ Hne]%scrub_Some. exact Hne.
        * intros r' x. rewrite users_after_disconnect.
          change (adapter (on_disconnect quiet c st).1)
            with (leaveAll c (adapter st)).
          rewrite members_leaveAll, elem_of_scrubbed, elem_of_difference,
            elem_of_singleton.
          intros [Hne Hx]. split; [apply Hc, Hx|exact Hne]. }
  destruct Hinv as [He Hc]. split; [|apply Hc].
  unfold users. split.
  - intros [us Hus]. rewrite Hus. cbn. eapply He, Hus.
  - destruct (rooms (Api.run evs init).1 !! r) as [us|]; cbn; [eauto|].
    intros H. contradiction H. reflexivity.
Qed.

(** * Further properties of the finalize URL *)

Lemma append_inj_l (p s t : string) : p +:+ s = p +:+ t -> s = t.
Proof.
  induction p as [|c p IH]; [rewrite !append_nil_l; auto|].
  rewrite !append_cons. intros H. injection H as H. apply IH, H.
Qed.

Lemma encodeURIComponent_inj (r1 r2 : string) :
  encodeURIComponent r1 = encodeURIComponent r2 -> r1 = r2.
Proof.
  intros H. apply (f_equal percent_decode) in H.
  rewrite !percent_decode_encode in H. injection H as H. exact H.
Qed.

(** X16.  Two different room identifiers never give the same request:
    [encodeURIComponent] maps different identifiers to different texts,
    and for one base the URLs of the finalize requests of two different
    rooms differ. *)
Theorem finalize_url_tells_rooms_apart (base r1 r2 : string) :
  r1 ≠ r2 ->
  encodeURIComponent r1 ≠ encodeURIComponent r2
  /\ finalize_url base r1 ≠ finalize_url base r2.
Proof.
  intros Hne. split.
  - intros H. apply Hne, encodeURIComponent_inj, H.
  - unfold finalize_url. intros H.
    apply append_inj_l, append_inj_l in H.
    apply Hne, encodeURIComponent_inj, H.
Qed.

Lemma finalize_url_tells_rooms_apart_witness :
  "a/b" ≠ "a%2Fb"
  /\ finalize_url "https://resume.example.org/" "a/b"
     ≠ finalize_url "https://resume.example.org/" "a%2Fb".
Proof.
  assert (H : "a/b" ≠ "a%2Fb") by discriminate.
  split; [exact H|].
  apply (finalize_url_tells_rooms_apart "https://resume.example.org/" _ _ H).
Defined.

Lemma all_slashes_ends (s : string) :
  all_slashes s = true -> s ≠ EmptyString -> ends_with_slash s = true.
Proof.
  induction s as [|c s IH]; [contradiction|].
  cbn [all_slashes]. intros [Hc Hs]%andb_prop _.
  destruct s as [|d s]; [exact Hc|].
  change (ends_with_slash (String d s) = true). apply IH; [exact Hs|discriminate].
Qed.

Lemma replace_trailing_slashes_id (s : string) :
  ends_with_slash s = false -> replace_trailing_slashes s = s.
Proof.
  induction s as [|c s IH]; [reflexivity|]. intros He.
  cbn [replace_trailing_slashes].
  destruct s as [|d s].
  - cbn in *. rewrite He. reflexivity.
  - change (ends_with_slash (String d s) = false) in He.
    destruct (all_slashes (String d s)) eqn:Ha.
    + rewrite (all_slashes_ends _ Ha) in He by discriminate. discriminate.
    + rewrite andb_false_r, (IH He). reflexivity.
Qed.

Lemma encodeURIComponent_unreserved (s : string) :
  string_forallb uri_unreserved s = true -> encodeURIComponent s = s.
Proof.
  induction s as [|c s IH]; [reflexivity|].
  cbn [string_forallb encodeURIComponent]. intros [Hc Hs]%andb_prop.
  rewrite Hc, append_cons, append_nil_l, (IH Hs). reflexivity.
Qed.

(** X17.  For a base that does not end with a slash and a room
    identifier made of letters, digits and [- _ . ! ~ * ' ( )] only, the
    request goes to the base followed by [/api/audio/finalize?roomId=] and
    the identifier, both as they are. *)
Theorem finalize_url_plain (base r : string) :
  ends_with_slash base = false ->
  string_forallb uri_unreserved r = true ->
  finalize_url base r = base +:+ "/api/audio/finalize?roomId=" +:+ r.
Proof.
  intros Hb Hr. unfold finalize_url.
  rewrite (replace_trailing_slashes_id base Hb),
    (encodeURIComponent_unreserved r Hr).
  reflexivity.
Qed.

Lemma finalize_url_plain_witness :
  finalize_url "https://api-resume.agorax.com" "room-abc123"
  = "https://api-resume.agorax.com/api/audio/finalize?roomId=room-abc123".
Proof.
  apply (finalize_url_plain "https://api-resume.agorax.com" "room-abc123");
    vm_compute; reflexivity.
Defined.

(** * The start-up code *)

(** ** [split] *)

Lemma split_comma_cons (s : string) : exists p ps, split_comma s = p :: ps.
Proof.
  destruct s as [|c s]; cbn; [eauto|].
  destruct (Ascii.eqb c ","); [eauto|].
  destruct (split_comma s); eauto.
Qed.

Lemma length_split_comma (s : string) :
  length (split_comma s) = S (count_commas s).
Proof.
  induction s as [|c s IH]; [reflexivity|]. cbn.
  destruct (Ascii.eqb c ","); cbn; [rewrite IH; reflexivity|].
  destruct (split_comma s); cbn in *; [discriminate|exact IH].
Qed.

Lemma concat_cons (sep p q : string) (ps : list string) :
  String.concat sep (p :: q :: ps)
  = p +:+ sep +:+ String.concat sep (q :: ps).
Proof. reflexivity. Qed.

Lemma concat_split_comma (s : string) : String.concat "," (split_comma s) = s.
Proof.
  induction s as [|c s IH]; [reflexivity|]. cbn [split_comma].
  destruct (split_comma_cons s) as (p & ps & Hs). rewrite Hs in *.
  destruct (Ascii.eqb c ",") eqn:Hc.
  - apply Ascii.eqb_eq in Hc. subst c.
    rewrite concat_cons, IH. reflexivity.
  - destruct ps as [|q ps].
    + cbn in *. rewrite IH. reflexivity.
    + rewrite concat_cons in *. rewrite append_cons, IH. reflexivity.
Qed.

Lemma split_comma_no_comma (s : string) :
  Forall (fun p => no_comma p = true) (split_comma s).
Proof.
  induction s as [|c s IH]; [repeat constructor|]. cbn [split_comma].
  destruct (Ascii.eqb c ",") eqn:Hc; [constructor; [reflexivity|exact IH]|].
  destruct (split_comma s) as [|p ps].
  - repeat constructor. unfold no_comma. cbn. rewrite Hc. reflexivity.
  - apply Forall_cons in IH as [Hp Hps]. constructor; [|exact Hps].
    unfold no_comma in *. cbn. rewrite Hc, Hp. reflexivity.
Qed.

(** ** [trim] *)

Lemma string_len_ind (P : string -> Prop) :
  (forall s, (forall t, (String.length t < String.length s)%nat -> P t) -> P s) ->
  forall s, P s.
Proof.
  intros H s. remember (String.length s) as n eqn:E. revert s E.
  induction n as [n IH] using lt_wf_ind. intros s ->.
  apply H. intros t Ht. apply (IH _ Ht). reflexivity.
Qed.

Lemma ws_exclusive (c1 c2 c3 : ascii) :
  (ws2 c1 c2 = true -> ws1 c1 = false)
  /\ (ws3 c1 c2 c3 = true -> ws1 c1 = false /\ ws2 c1 c2 = false).
Proof.
  destruct c1 as [[] [] [] [] [] [] [] []]; vm_compute; split; intros H;
    try discriminate; try split; reflexivity.
Qed.

Ltac trim_cases s IH :=
  let c1 := fresh "c1" in let c2 := fresh "c2" in let c3 := fresh "c3" in
  let s1 := fresh "s1" in let s2 := fresh "s2" in let s3 := fresh "s3" in
  let W1 := fresh "W1" in let W2 := fresh "W2" in let W3 := fresh "W3" in
  destruct s as [|c1 s1]; [|
    cbn [trimStart]; destruct (ws1 c1) eqn:W1; [|
      destruct s1 as [|c2 s2]; [|
        destruct (ws2 c1 c2) eqn:W2; [|
          destruct s2 as [|c3 s3]; [|
            destruct (ws3 c1 c2 c3) eqn:W3]]]]].

Lemma trimStart_clean (s : string) : starts_with_ws (trimStart s) = false.
Proof.
  induction s as [s IH] using string_len_ind.
  trim_cases s IH; try (apply IH; cbn; lia); cbn;
    rewrite ?W1, ?W2, ?W3; reflexivity.
Qed.

Lemma trimStart_forallb (q : ascii -> bool) (s : string) :
  string_forallb q s = true -> string_forallb q (trimStart s) = true.
Proof.
  induction s as [s IH] using string_len_ind. intros H.
  trim_cases s IH; try exact H; (apply IH; [cbn; lia|]); cbn in H;
    repeat (apply andb_prop in H as [_ H]); exact H.
Qed.

Lemma trimStart_id (s : string) :
  starts_with_ws s = false -> trimStart s = s.
Proof.
  intros H. trim_cases s IH; try reflexivity; cbn in H;
    rewrite ?W1, ?W2, ?W3 in H; discriminate.
Qed.

Lemma trimStart_ws_point (w t : string) :
  is_ws_point w = true -> trimStart (w +:+ t) = trimStart t.
Proof.
  destruct w as [|c1 [|c2 [|c3 [|c4 w]]]]; cbn [is_ws_point];
    try discriminate; intros H; rewrite !append_cons, append_nil_l.
  - cbn [trimStart]. rewrite H. reflexivity.
  - destruct (ws_exclusive c1 c2 c2) as [W1 _].
    cbn [trimStart]. rewrite (W1 H), H. reflexivity.
  - destruct (ws_exclusive c1 c2 c3) as [_ W]. destruct (W H) as [W1 W2].
    cbn [trimStart]. rewrite W1, W2, H. reflexivity.
Qed.

Lemma ends_with_ws_cons (c : ascii) (s : string) :
  ends_with_ws s = true -> ends_with_ws (String c s) = true.
Proof. cbn [ends_with_ws]. intros ->. apply orb_true_r. Qed.

Lemma ends_with_ws_point (s : string) :
  is_ws_point s = true -> ends_with_ws s = true.
Proof. destruct s as [|c s]; [discriminate|]. cbn [ends_with_ws]. intros ->. reflexivity. Qed.

Lemma trimStart_empty_ends (s : string) :
  trimStart s = EmptyString -> s ≠ EmptyString -> ends_with_ws s = true.
Proof.
  induction s as [s IH] using string_len_ind.
  trim_cases s IH; intros H Hne; try contradiction; try discriminate.
  - destruct s1 as [|c2 s2]; [apply ends_with_ws_point; exact W1|].
    apply ends_with_ws_cons, IH; [cbn; lia|exact H|discriminate].
  - destruct s2 as [|c3 s3]; [apply ends_with_ws_point; exact W2|].
    do 2 apply ends_with_ws_cons.
    apply IH; [cbn; lia|exact H|discriminate].
  - destruct s3 as [|c4 s4]; [apply ends_with_ws_point; exact W3|].
    do 3 apply ends_with_ws_cons.
    apply IH; [cbn; lia|exact H|discriminate].
Qed.

Lemma trimEnd_split (s : string) :
  exists tail, s = trimEnd s +:+ tail /\ trimStart tail = EmptyString.
Proof.
  induction s as [|c s (tail & IH & Ht)]; [exists EmptyString; split; reflexivity|].
  cbn [trimEnd].
  destruct (String.eqb (trimStart (String c s)) EmptyString) eqn:E.
  - apply String.eqb_eq in E. exists (String c s). split; [reflexivity|exact E].
  - exists tail. rewrite append_cons, <- IH. split; [reflexivity|exact Ht].
Qed.

Lemma trimEnd_clean (s : string) : ends_with_ws (trimEnd s) = false.
Proof.
  induction s as [|c s IH]; [reflexivity|]. cbn [trimEnd].
  destruct (String.eqb (trimStart (String c s)) EmptyString) eqn:E;
    [reflexivity|].
  cbn [ends_with_ws]. rewrite IH, orb_false_r.
  destruct (is_ws_point (String c (trimEnd s))) eqn:W; [|reflexivity].
  destruct (trimEnd_split s) as (tail & Hs & Ht).
  apply String.eqb_neq in E. contradiction E.
  rewrite Hs, <- append_cons, (trimStart_ws_point _ tail W). exact Ht.
Qed.

Lemma starts_with_ws_prefix (p t : string) :
  starts_with_ws p = true -> starts_with_ws (p +:+ t) = true.
Proof.
  destruct p as [|c1 [|c2 [|c3 p]]]; cbn [starts_with_ws];
    rewrite ?append_cons, ?append_nil_l; try discriminate; intros H;
    cbn [starts_with_ws].
  - rewrite orb_false_r in H. rewrite H. reflexivity.
  - rewrite orb_false_r in H.
    apply orb_prop in H as [->| ->]; [reflexivity|].
    destruct t; rewrite ?orb_true_r; reflexivity.
  - exact H.
Qed.

Lemma trimEnd_keeps_start (s : string) :
  starts_with_ws s = false -> starts_with_ws (trimEnd s) = false.
Proof.
  intros H. destruct (starts_with_ws (trimEnd s)) eqn:E; [|reflexivity].
  destruct (trimEnd_split s) as (tail & Hs & _).
  rewrite Hs, (starts_with_ws_prefix _ tail E) in H. discriminate.
Qed.

Lemma trimEnd_forallb (q : ascii -> bool) (s : string) :
  string_forallb q s = true -> string_forallb q (trimEnd s) = true.
Proof.
  induction s as [|c s IH]; [reflexivity|]. cbn [trimEnd string_forallb].
  intros [Hc Hs]%andb_prop.
  destruct (String.eqb _ _); [reflexivity|].
  cbn. rewrite Hc, (IH Hs). reflexivity.
Qed.

Lemma trimEnd_id (s : string) : ends_with_ws s = false -> trimEnd s = s.
Proof.
  induction s as [|c s IH]; [reflexivity|]. intros H.
  cbn [trimEnd].
  destruct (String.eqb (trimStart (String c s)) EmptyString) eqn:E.
  - apply String.eqb_eq in E.
    rewrite (trimStart_empty_ends _ E) in H by discriminate. discriminate.
  - cbn [ends_with_ws] in H. apply orb_false_elim in H as [_ H].
    rewrite (IH H). reflexivity.
Qed.

Lemma trim_clean (s : string) :
  starts_with_ws (trim s) = false /\ ends_with_ws (trim s) = false.
Proof.
  unfold trim. split; [apply trimEnd_keeps_start, trimStart_clean|].
  apply trimEnd_clean.
Qed.

Lemma trim_id (s : string) :
  starts_with_ws s = false -> ends_with_ws s = false -> trim s = s.
Proof.
  intros Hs He. unfold trim. rewrite (trimStart_id s Hs). apply trimEnd_id, He.
Qed.

Lemma trim_no_comma (s : string) : no_comma s = true -> no_comma (trim s) = true.
Proof. intros H. apply trimEnd_forallb, trimStart_forallb, H. Qed.

(** X18.  The allowed origins: when [ORIGIN] is not set the option is
    [undefined]; when it is set to [s], [s] is cut at its commas, into one
    piece more than it has commas (joined by commas the pieces give [s]
    back, and none holds a comma), and each piece is trimmed: no origin
    starts or ends with white space or holds a comma, and a piece that
    has no white space at its ends is an origin as it is. *)
Theorem cors_origin_entries (s : string) :
  cors_origin None = None
  /\ exists pieces,
       String.concat "," pieces = s
       /\ Forall (fun p => no_comma p = true) pieces
       /\ length pieces = S (count_commas s)
       /\ cors_origin (Some s) = Some (trim <$> pieces)
       /\ Forall (fun o => starts_with_ws o = false
                           /\ ends_with_ws o = false
                           /\ no_comma o = true) (trim <$> pieces)
       /\ Forall (fun p => starts_with_ws p = false ->
                           ends_with_ws p = false -> trim p = p) pieces.
Proof.
  split; [reflexivity|]. exists (split_comma s).
  split; [apply concat_split_comma|].
  split; [apply split_comma_no_comma|].
  split; [apply length_split_comma|].
  split; [reflexivity|]. split.
  - apply Forall_fmap. eapply Forall_impl; [apply split_comma_no_comma|].
    intros p Hp. cbn. destruct (trim_clean p) as [H1 H2].
    split; [exact H1|]. split; [exact H2|apply trim_no_comma, Hp].
  - apply Forall_forall. intros p _. apply trim_id.
Qed.

Example cors_origin_spaces :
  cors_origin (Some "http://localhost:3000 , https://agorax.com,")
  = Some ["http://localhost:3000"; "https://agorax.com"; ""].
Proof. vm_compute. reflexivity. Qed.

(** X19.  The origin shown in the start-up line.  When [DIR] is not set
    or is empty it is [http://localhost].  When [DIR] starts with a
    character other than a comma it is the text before the first comma,
    trimmed: it has no white space at its ends and no comma (it is empty
    when that text is white space only).  When [DIR] starts with a comma
    it is [DIR] itself, commas included. *)
Theorem log_origin_cases (DIR : option string) :
  (DIR = None \/ DIR = Some EmptyString -> log_origin DIR = "http://localhost")
  /\ (forall s, DIR = Some (String "," s) -> log_origin DIR = String "," s)
  /\ (forall c s, DIR = Some (String c s) -> Ascii.eqb c "," = false ->
        exists p ps,
          split_comma (String c s) = p :: ps
          /\ log_origin DIR = trim p
          /\ starts_with_ws (log_origin DIR) = false
          /\ ends_with_ws (log_origin DIR) = false
          /\ no_comma (log_origin DIR) = true).
Proof.
  split; [|split].
  - intros [->| ->]; reflexivity.
  - intros s ->. reflexivity.
  - intros c s -> Hc. unfold log_origin. cbn [truthy split_comma].
    rewrite Hc. destruct (split_comma_cons s) as (p & ps & Hs).
    pose proof (split_comma_no_comma s) as Hn. rewrite Hs in *.
    apply Forall_cons in Hn as [Hp _].
    exists (String c p), ps. split; [reflexivity|]. split; [reflexivity|].
    destruct (trim_clean (String c p)) as [H1 H2].
    split; [exact H1|]. split; [exact H2|].
    apply trim_no_comma. unfold no_comma in *. cbn. rewrite Hc, Hp.
    reflexivity.
Qed.

Example log_origin_examples :
  log_origin (Some "http://localhost:3000 ,x") = "http://localhost:3000"
  /\ log_origin (Some " ,x") = ""
  /\ log_origin (Some ",x") = ",x".
Proof. vm_compute. repeat split; reflexivity. Qed.

(** * How much one event can make the server do *)

Lemma length_emissions_le (effs : list effect) :
  (length (emissions effs) <= length effs)%nat.
Proof. unfold emissions. apply List.filter_length_le. Qed.

Lemma length_posts_fetches_tail (e : effect) (urls : list string) :
  posts (e :: (Fetch_POST <$> urls))
  = posts [e] ++ urls.
Proof.
  change (e :: (Fetch_POST <$> urls)) with ([e] ++ (Fetch_POST <$> urls)).
  rewrite posts_app, posts_fetches. reflexivity.
Qed.

(** X20.  A disconnect emits exactly one event for each room of the
    registry, so as many as the registry has rooms, and issues at most
    one request for each.  Every other event makes the server emit at
    most one event and issue at most one request. *)
Theorem work_per_event (env : environment) (st : server) (ev : event) :
  (forall c, ev = disconnect c ->
     length (emissions (step env st ev).2) = size (rooms st)
     /\ (length (posts (step env st ev).2) <= size (rooms st))%nat)
  /\ ((forall c, ev ≠ disconnect c) ->
      (length (emissions (step env st ev).2) <= 1)%nat
      /\ (length (posts (step env st ev).2) <= 1)%nat).
Proof.
  split.
  - intros c ->. cbn [step]. rewrite on_disconnect_spec. cbn [snd].
    assert (Hk : length (keys (rooms st)) = size (rooms st)).
    { unfold keys. rewrite length_fmap. apply length_map_to_list. }
    rewrite emissions_sweep by (intros k Hk'; apply keys_spec, Hk').
    rewrite length_fmap. split; [exact Hk|]. rewrite <- Hk.
    generalize (keys (rooms st)). intros ks.
    induction ks as [|k ks IH]; [cbn; lia|].
    rewrite bind_cons, posts_app, length_app. cbn [length].
    assert ((length (posts (room_effects
               (fun r => Fetch_POST <$> finalize_requests env r) c
               (leaveAll c (adapter st)) (rooms st) k)) <= 1)%nat); [|lia].
    unfold room_effects. destruct (rooms st !! k) as [us|]; [|cbn; lia].
    destruct (length _ =? 0)%nat; [|cbn; lia].
    rewrite length_posts_fetches_tail. cbn.
    apply finalize_requests_short.
  - intros Hev.
    destruct ev as [c|c r|c r|c r X to|c r X to|c X to|c];
      try rewrite step_join; cbn [step]; try (cbn; lia).
    + destruct (finds_prototype_value _ _); [cbn; lia|].
      unfold on_join_voice_room.
      destruct (10 <=? length _)%nat; cbn [snd]; [cbn; lia|].
      destruct (negb _); cbn; lia.
    + destruct (rooms st !! r) as [us|] eqn:E.
      * rewrite (on_leave_known env c r st us E). cbn [snd].
        destruct (scrub c us); [cbn; lia|].
        rewrite length_posts_fetches_tail, emissions_cons_emit,
          emissions_fetches.
        cbn. split; [lia|apply finalize_requests_short].
      * rewrite (on_leave_unknown env c r st E). cbn. lia.
    + contradiction (Hev c). reflexivity.
Qed.
